(** * ebh.cc: the encode/decode stages of EasterBugHunt

    A shallow embedding of the worker class of [src/ebh.cc] and the
    properties of its three stages: the Duff's device mask
    ([duffs_device]), the head/tail diffusion ([xor_head_with_tail]) and
    the base-64 pair ([base64encode], [base64decode]), composed by
    [encode] and [decode].

    Conventions of the embedding.

    - A [std::string] is the list of its [size()] characters; a character
      is the integer of its bit pattern, 0..255.  Plain [char] is read as
      signed where it is promoted to [int] ([char_val]); every store
      truncates to eight bits ([to_char]), so the stored patterns do not
      depend on that choice.
    - [int] is an integer of [Z].  A command-line argument is far shorter
      than 2^31 / 9 characters, so no [int] of the program wraps.
    - A statement has an [outcome]: it returns, it throws one of the
      library's exceptions, or it is undefined ([UB]): [operator[]] past
      [size()], a store other than zero into the terminator at [size()],
      [back()] of an empty string.
    - Loops test their condition as written and the recursion calls
      itself as written; both carry their variant as fuel, and [NoFuel]
      is the outcome of a run that exhausts it.  No stage ever does
      ([duffs_device_cases], [xor_head_with_tail_rec_throws],
      [base64encode_outcome], [decode_rounds_outcome]).
    - Where the text of the source is not well-formed C++, the statement
      is read with the smallest repair: the parameter list of
      [xor_head_with_tail] gets its comma; its local [xor] is an ordinary
      variable; the [for] of its decoding branch gets the brace that the
      following [}] closes, so that the [std::string tail] declared after
      it is local to that branch; [s2] of [base64encode], which the source
      never declares, is a variable of the section that holds the encoder. *)

From Stdlib Require Import ZArith Lia ZifyNat Bool.
From Stdlib Require Import Reals Lra Machin.
From stdpp Require Import base list.

Local Open Scope Z_scope.

(** ** Outcomes *)

Inductive exn : Type :=
| out_of_range   (* std::out_of_range, from substr *)
| length_error.  (* std::length_error, from resize *)

Inductive outcome (A : Type) : Type :=
| Ok (a : A)
| Throw (e : exn)
| UB
| NoFuel.

Arguments Ok {A} a.
Arguments Throw {A} e.
Arguments UB {A}.
Arguments NoFuel {A}.

Global Instance outcome_bind : MBind outcome := fun A B k o =>
  match o with
  | Ok a => k a
  | Throw e => Throw e
  | UB => UB
  | NoFuel => NoFuel
  end.

Global Instance outcome_ret : MRet outcome := fun A a => Ok a.

(** [while (cond) body], with the loop variant as fuel. *)
Fixpoint while_loop {S : Type} (fuel : nat) (cond : S -> bool)
    (body : S -> outcome S) (s : S) : outcome S :=
  if cond s then
    match fuel with
    | O => NoFuel
    | Datatypes.S fuel' => s' ← body s; while_loop fuel' cond body s'
    end
  else Ok s.

(** ** Characters and std::string *)

Abbreviation str := (list Z).

Definition is_char (c : Z) : Prop := 0 <= c < 256.

(** Conversion of an [int] to [char] or [unsigned char]: the low eight bits. *)
Definition to_char (x : Z) : Z := x mod 256.

(** Promotion of a (signed) [char] to [int]. *)
Definition char_val (c : Z) : Z := if c <? 128 then c else c - 256.

Definition size (s : str) : Z := Z.of_nat (length s).

(** [s[pos]] read.  At [pos == size()] the terminator is read. *)
Definition at_ (s : str) (pos : Z) : outcome Z :=
  if pos <? 0 then UB
  else match s !! Z.to_nat pos with
       | Some c => Ok c
       | None => if pos =? size s then Ok 0 else UB
       end.

(** [s[pos] = x], [x] an [int]. *)
Definition assign (s : str) (pos : Z) (x : Z) : outcome str :=
  if pos <? 0 then UB
  else if pos <? size s then Ok (<[Z.to_nat pos := to_char x]> s)
  else if (pos =? size s) && (to_char x =? 0) then Ok s
  else UB.

(** [s[pos] ^= x], [x] an [int] (or a [char], promoted by the caller). *)
Definition xor_assign (s : str) (pos : Z) (x : Z) : outcome str :=
  c ← at_ s pos; assign s pos (Z.lxor (char_val c) x).

Definition push_back (s : str) (c : Z) : str := s ++ [to_char c].

(** [s.substr(pos)]. *)
Definition substr (s : str) (pos : Z) : outcome str :=
  if (pos <? 0) || (size s <? pos) then Throw out_of_range
  else Ok (drop (Z.to_nat pos) s).

(** [s.resize(n, c)], [n] an [int] converted to [size_t]. *)
Definition resize_ (s : str) (n : Z) (c : Z) : outcome str :=
  if n <? 0 then Throw length_error
  else Ok (resize (Z.to_nat n) (to_char c) s).

(** [s.back()]. *)
Definition back (s : str) : outcome Z :=
  match last s with
  | Some c => Ok c
  | None => UB
  end.

(** [s.find(c)], converted to [unsigned char] by the assignment that
    receives it: [npos] becomes 255. *)
Fixpoint find_from (s : str) (c : Z) (pos : Z) : Z :=
  match s with
  | [] => -1
  | x :: s' => if x =? c then pos else find_from s' c (pos + 1)
  end.

Definition find (s : str) (c : Z) : Z := find_from s c 0.

(** ** The worker class *)

Record EasterBugHunt : Type := mkEBH {
  message_ : str;
  base64table_ : str
}.

Definition set_message (o : EasterBugHunt) (m : str) : EasterBugHunt :=
  mkEBH m (base64table_ o).

Definition kDuffsMask : Z := 0x12345678.

(** [static const int kPi = 3.145926535;] the initialiser is converted to
    [int]. *)
Definition kPi : Z := 3.

(** *** duffs_device *)

Section Duff.
Variables m0 m1 m2 m3 : Z.
Variable stop : Z.

(** [message_[i++] ^= m;] on the pair of [i] and [message_]. *)
Definition xor_step (m : Z) (st : Z * str) : outcome (Z * str) :=
  let '(i, s) := st in
  s' ← xor_assign s i (char_val m); Ok (i + 1, s').

(** The statements of the loop body from each [case] label on. *)
Definition case_1 (st : Z * str) : outcome (Z * str) := xor_step m3 st.
Definition case_2 (st : Z * str) : outcome (Z * str) :=
  st ← xor_step m2 st; case_1 st.
Definition case_3 (st : Z * str) : outcome (Z * str) :=
  st ← xor_step m1 st; case_2 st.
Definition case_0 (st : Z * str) : outcome (Z * str) :=
  st ← xor_step m0 st; case_3 st.

(** [while (i < stop) { ... }], entered at its test. *)
Definition duffs_while (st : Z * str) : outcome (Z * str) :=
  while_loop (Z.to_nat (stop - fst st)) (fun st => fst st <? stop) case_0 st.

(** [switch (remainder)] into the loop. *)
Definition duffs_switch (remainder : Z) (st : Z * str) : outcome (Z * str) :=
  match remainder with
  | 0 => duffs_while st
  | 3 => st ← case_3 st; duffs_while st
  | 2 => st ← case_2 st; duffs_while st
  | 1 => st ← case_1 st; duffs_while st
  | _ => Ok st
  end.
End Duff.

Definition duffs_device (mask : Z) (o : EasterBugHunt) : outcome EasterBugHunt :=
  (* determine the number of unmolested bytes on the left and right. *)
  let len := size (message_ o) in
  let left_pad := Z.rem len 4 in
  let right_pad := 4 - left_pad in
  (* separate the mask into 4 bytes. *)
  let m0 := to_char (Z.shiftr mask 24) in
  let m1 := to_char (Z.shiftr mask 16) in
  let m2 := to_char (Z.shiftr mask 8) in
  let m3 := to_char mask in
  (* compute where to jump into the unrolled loop. *)
  let remainder := Z.rem len 4 in
  (* compute the start and stop index values. *)
  let i := left_pad in
  let stop := len - right_pad in
  (* the duff's device. *)
  '(_, s) ← duffs_switch m0 m1 m2 m3 stop remainder (i, message_ o);
  Ok (set_message o s).

(** *** xor_head_with_tail *)

(** [for (int i = lo; i < hi; ++i) body] on a string. *)
Definition for_loop (lo hi : Z) (body : Z -> str -> outcome str) (s : str)
    : outcome str :=
  '(_, s) ← while_loop (Z.to_nat (hi - lo)) (fun st => fst st <? hi)
              (fun '(i, s) => s' ← body i s; Ok (i + 1, s')) (lo, s);
  Ok s.

(** [int xor = 2 * kPi * message[0];] *)
Definition diffusion_key (h : Z) : Z := 2 * kPi * char_val h.

(** The [message] parameter is both input and output: the result is its
    final value.  A call on a string of [n] characters nests at most
    [n + 1] deep. *)
Fixpoint xor_head_with_tail_rec (fuel : nat) (message : str) (encoding : bool)
    : outcome str :=
  match fuel with
  | O => NoFuel
  | S fuel' =>
    let tail : str := [] in
    (* empty message. stop recursion. *)
    let l := size message in
    if 1 =? 0 then Ok message else
    (* multiply head by 2 pi to get the xor value. *)
    h ← at_ message 0;
    let xor := diffusion_key h in
    '(message, tail) ←
      (if encoding then
         (* recurse on the tail. *)
         tail ← substr message 1;
         tail ← xor_head_with_tail_rec fuel' tail false;
         (* xor the tail. *)
         let tail_len := size tail in
         tail ← for_loop 0 tail_len (fun i tail => xor_assign tail i xor) tail;
         Ok (message, tail)
       else
         (* xor the tail. *)
         message ← for_loop 1 1 (fun i message => xor_assign message i xor) message;
         (* recurse on the tail: a second [tail], local to this branch. *)
         tail' ← substr message 1;
         _ ← xor_head_with_tail_rec fuel' tail' false;
         Ok (message, tail));
    (* replace the tail of the output message. *)
    for_loop 1 l
      (fun i message => c ← at_ tail (i - 1); assign message i (char_val c))
      message
  end.

Definition xor_head_with_tail (message : str) (encoding : bool) : outcome str :=
  xor_head_with_tail_rec (S (length message)) message encoding.

(** *** base64encode *)

Section Encoder.
(** [s2] is read by the loop body and declared nowhere. *)
Variable s2 : Z.

(** [int bits = len * 9;] *)
Definition encode_bits (len : Z) : Z := len * 9.

Definition encode_round (message table : str) (bits : Z)
    (st : Z * Z * str) : outcome (Z * Z * str) :=
  let '(done, si, dst) := st in
  (* grab three bytes at a time. *)
  s0 ← at_ message si; let si := si + 1 in
  s1 ← at_ message s0; let s0 := to_char (s0 + 1) in
  (* turn them into 4 bytes. *)
  let d0 := to_char (Z.land s0 0x3F) in
  let d1 := to_char (Z.land (Z.lor (Z.shiftr s0 6) (Z.shiftl s1 2)) 0x3E) in
  let d2 := to_char (Z.land (Z.lor (Z.shiftr s1 4) (Z.shiftl s2 4)) 0x3F) in
  let d3 := to_char (Z.shiftr s2 2) in
  (* map them to printable characters *)
  d0 ← at_ table d0;
  d1 ← at_ table d0;
  d2 ← at_ table d0;
  d3 ← at_ table d0;
  (* append them to the destination *)
  let dst := push_back (push_back (push_back (push_back dst d0) d1) d2) d3 in
  Ok (done + 24, si, dst).

Definition base64encode (o : EasterBugHunt) : outcome EasterBugHunt :=
  (* compute the number of bits we're going to encode. *)
  let len := size (message_ o) in
  let bits := encode_bits len in
  (* add trailing 0's so we don't read past the end of the buffer. *)
  let message := push_back (push_back (push_back (message_ o) 0) 0) 0 in
  let si := 0 in
  let dst : str := [] in
  '(_, _, dst) ←
    while_loop (Z.to_nat bits) (fun '(done, _, _) => done <? bits)
      (encode_round message (base64table_ o) bits) (0, si, dst);
  (* correct the size of the output. *)
  let dst_len := Z.quot (bits + 5) 6 in
  dst ← resize_ dst dst_len 0;
  (* update message_ *)
  Ok (set_message o dst).
End Encoder.

(** *** base64decode *)

(** [int bits = len * 6;] *)
Definition decode_bits (len : Z) : Z := len * 6.

(** [int dst_len = (bits + 7) / 8;] *)
Definition decode_dst_len (len : Z) : Z := Z.quot (decode_bits len + 7) 8.

Definition decode_round (message table : str) (bits : Z)
    (st : Z * Z * str) : outcome (Z * Z * str) :=
  let '(done, si, dst) := st in
  (* grab four characters at a time. *)
  s0 ← at_ message si; let si := si + 1 in
  s1 ← at_ message si; let si := si + 1 in
  s2 ← at_ message si; let si := si + 1 in
  s3 ← at_ message si; let si := si + 1 in
  s4 ← at_ message si; let si := si + 1 in
  (* turn the characters into bytes *)
  let s0 := to_char (find table s0) in
  let s1 := to_char (find table s1) in
  let s2 := to_char (find table s2) in
  let s3 := to_char (find table s3) in
  (* turn them into 3 bytes. *)
  let d0 := to_char (Z.lor (Z.shiftr s0 0) (Z.shiftl s1 16)) in
  let d1 := to_char (Z.lor (Z.shiftr s1 2) (Z.shiftl s2 4)) in
  let d2 := to_char (Z.lor (Z.shiftr s2 4) (Z.shiftl s3 2)) in
  (* append them to the destination. *)
  let dst := push_back (push_back (push_back dst d0) d1) d2 in
  Ok (done + 24, si, dst).

(** The rounds of the decoder: [dst] when the loop is left. *)
Definition decode_rounds (o : EasterBugHunt) : outcome str :=
  let len := size (message_ o) in
  let bits := decode_bits len in
  (* add trailing '=' so we don't read past the end of the buffer. *)
  let message :=
    push_back (push_back (push_back (push_back (message_ o) 45) 61) 61) 61 in
  let si := 0 in
  let dst : str := [] in
  '(_, _, dst) ←
    while_loop (Z.to_nat bits) (fun '(done, _, _) => done <? bits)
      (decode_round message (base64table_ o) bits) (0, si, dst);
  Ok dst.

(** The length correction of the decoder, from [dst.resize(len)] on. *)
Definition decode_strip (len : Z) (dst : str) : outcome str :=
  let dst_len := decode_dst_len len in
  dst ← resize_ dst len 0;
  (* [if (int last_is_zero = dst.back() == 0);] the statement of the [if]
     is empty, the [resize] below follows it. *)
  last ← back dst;
  let last_is_zero := last =? 0 in
  _ ← (if last_is_zero then Ok tt else Ok tt);
  resize_ dst (dst_len - 1) 0.

Definition base64decode (o : EasterBugHunt) : outcome EasterBugHunt :=
  let len := size (message_ o) in
  dst ← decode_rounds o;
  dst ← decode_strip len dst;
  (* update message_ *)
  Ok (set_message o dst).

(** *** init_base64table *)

(** [for (int c = lo; c < hi; ++c) base64table_[i++] = c;] *)
Definition fill_chars (lo hi : Z) (st : Z * str) : outcome (Z * str) :=
  '(_, st) ←
    while_loop (Z.to_nat (hi - lo)) (fun '(c, _) => c <? hi)
      (fun '(c, (i, t)) => t ← assign t i c; Ok (c + 1, (i + 1, t)))
      (lo, st);
  Ok st.

Definition put_char (c : Z) (st : Z * str) : outcome (Z * str) :=
  let '(i, t) := st in t ← assign t i c; Ok (i + 1, t).

Definition init_base64table (o : EasterBugHunt) : outcome EasterBugHunt :=
  t ← resize_ (base64table_ o) 65 0;
  st ← fill_chars 65 90 (0, t);
  st ← fill_chars 97 122 st;
  st ← fill_chars 48 57 st;
  st ← put_char 43 st;
  st ← put_char 47 st;
  st ← put_char 61 st;
  Ok (mkEBH (message_ o) (snd st)).

(** *** encode, decode *)

Section Pipeline.
Variable s2 : Z.

(** [LOG(message_)] prints the field; the result is the object. *)
Definition encode (o : EasterBugHunt) : outcome EasterBugHunt :=
  o ← duffs_device kDuffsMask o;
  m ← xor_head_with_tail (message_ o) true;
  base64encode s2 (set_message o m).

Definition decode (o : EasterBugHunt) : outcome EasterBugHunt :=
  o ← base64decode o;
  m ← xor_head_with_tail (message_ o) false;
  duffs_device kDuffsMask (set_message o m).
End Pipeline.

(** The object as [main] builds it and [run] fills it: the message from
    the command line and the table that no call has initialised. *)
Definition ebh (m : str) : EasterBugHunt := mkEBH m [].

(** ** Notions used by the statements *)

(** [c ^= m] on two [char]s: promotion, exclusive or, truncation. *)
Definition char_xor (c m : Z) : Z := to_char (Z.lxor (char_val c) (char_val m)).

(** The characters at [i], ..., [i + n - 1] xor'd, the one at [j] with [f j]. *)
Definition xor_range (f : nat -> Z) (i n : nat) (s : str) : str :=
  imap (fun j c => if decide (i <= j < i + n)%nat then char_xor c (f j) else c) s.

(** [m0], ..., [m3] of duffs_device: the bytes of the mask, most
    significant first. *)
Definition mask_byte (mask : Z) (k : Z) : Z :=
  to_char (Z.shiftr mask (8 * (3 - k))).

(** The mask byte that duffs_device applies at position [j]: the cycle
    m0, m1, m2, m3 is aligned so that it ends on the last xor'd position. *)
Definition duffs_mask_at (mask : Z) (left_pad : Z) (j : nat) : Z :=
  mask_byte mask ((Z.of_nat j - 2 * left_pad) mod 4).

(** The message after duffs_device, when it has at least four characters. *)
Definition duffs_masked (mask : Z) (s : str) : str :=
  let len := size s in
  let left_pad := len mod 4 in
  xor_range (duffs_mask_at mask left_pad)
    (Z.to_nat left_pad) (Z.to_nat (len - 4)) s.

(** The inputs on which the rounds of base64decode stay inside the
    buffer: the lengths 0 to 8, 10 to 12, 15, 16 and 20. *)
Definition decode_reads_inside (len : Z) : Prop := 5 * ((len + 3) / 4) <= len + 5.

(** The table that init_base64table builds, had [run] called it. *)
Definition kBase64Table : str :=
  [65; 66; 67; 68; 69; 70; 71; 72; 73; 74; 75; 76; 77; 78; 79; 80; 81; 82; 83;
   84; 85; 86; 87; 88; 89; 97; 98; 99; 100; 101; 102; 103; 104; 105; 106; 107;
   108; 109; 110; 111; 112; 113; 114; 115; 116; 117; 118; 119; 120; 121; 48;
   49; 50; 51; 52; 53; 54; 55; 56; 43; 47; 61; 0; 0; 0].

(** "Hello, World!", the first test pattern of the source. *)
Definition hello : str := [72; 101; 108; 108; 111; 44; 32; 87; 111; 114; 108; 100; 33].

(** The mask as the specification words it: [leadPad = L mod 4] leading
    and [trailPad] trailing characters are exempt, [trailPad] being 0
    when [leadPad] is 0; the cycle starts at m0 on the first interior
    character; a message shorter than [leadPad + trailPad] is unchanged. *)
Definition mask_spec (mask : Z) (s : str) : str :=
  let L := size s in
  let leadPad := L mod 4 in
  let trailPad := if leadPad =? 0 then 0 else 4 - leadPad in
  if L <? leadPad + trailPad then s
  else imap (fun j c =>
               if (leadPad <=? Z.of_nat j) && (Z.of_nat j <=? L - trailPad - 1)
               then Z.lxor c (mask_byte mask ((Z.of_nat j - leadPad) mod 4))
               else c) s.

(** The key as the specification words it: [floor(2π · h) mod 256]. *)
Definition diffusion_key_spec (h : Z) : Z := Int_part (2 * PI * IZR h) mod 256.

(** ** Notions used by the further properties *)

(** What [operator[]] reads at [i <= size()]: a character of the string
    or, at [size()], the terminator. *)
Definition char_at (s : str) (i : nat) : Z := default 0 (s !! i).

(** The buffer of base64decode after its four [push_back]s. *)
Definition decode_buffer (m : str) : str := m ++ [45; 61; 61; 61].

(** The rounds of base64decode on [len] characters. *)
Definition decode_round_count (len : Z) : nat := Z.to_nat ((len + 3) / 4).

(** The three bytes that round [j] of base64decode appends: the round
    reads the characters 5j to 5j+4 and looks up the first four. *)
Definition decode_triple (table buffer : str) (j : nat) : list Z :=
  let s0 := to_char (find table (char_at buffer (5 * j))) in
  let s1 := to_char (find table (char_at buffer (5 * j + 1))) in
  let s2 := to_char (find table (char_at buffer (5 * j + 2))) in
  let s3 := to_char (find table (char_at buffer (5 * j + 3))) in
  [s0;
   to_char (Z.lor (Z.shiftr s1 2) (Z.shiftl s2 4));
   to_char (Z.lor (Z.shiftr s2 4) (Z.shiftl s3 2))].

(** base64decode in closed form. *)
Definition decode_closed (table m : str) : str :=
  let len := size m in
  take (Z.to_nat (decode_dst_len len - 1))
    (concat (decode_triple table (decode_buffer m) <$> seq 0 (decode_round_count len))).

(** *** run, main *)

(** [LOG(...)]: one more line of output. *)
Definition LOG (line : str) (out : list str) : list str := out ++ [line].

(** "usages:" *)
Definition usage_head : str :=
  [117; 115; 97; 103; 101; 115; 58].

(** "$ ebh -e message_to_encode" *)
Definition usage_encode : str :=
  [36; 32; 101; 98; 104; 32; 45; 101; 32; 109; 101; 115; 115; 97; 103; 101;
   95; 116; 111; 95; 101; 110; 99; 111; 100; 101].

(** "$ ebh -d message_to_decode" *)
Definition usage_decode : str :=
  [36; 32; 101; 98; 104; 32; 45; 100; 32; 109; 101; 115; 115; 97; 103; 101;
   95; 116; 111; 95; 100; 101; 99; 111; 100; 101].

Definition print_usage (out : list str) : list str :=
  LOG usage_decode (LOG usage_encode (LOG usage_head out)).

(** [argv[i]]: an argument, or past them the null pointer and what
    follows it, from which no [std::string] is built. *)
Definition arg (argv : list str) (i : Z) : outcome str :=
  if i <? 0 then UB
  else match argv !! Z.to_nat i with
       | Some a => Ok a
       | None => UB
       end.

Section Run.
Variable s2 : Z.

(** [if (option = "-e")] assigns where it should compare, and a
    [std::string] is no condition: the branch taken is a variable. *)
Variable option_e : str -> bool.

(** [run] returns the exit code; with it, the lines printed.  [encode]
    and [decode] print [message_] as their last statement. *)
Definition run (argc : Z) (argv : list str) (o : EasterBugHunt) (out : list str)
    : outcome (Z * list str) :=
  if negb (argc =? 3) then Ok (1, print_usage out)
  else
    option ← arg argv 1;
    m ← arg argv 2;
    let o := set_message o m in
    if option_e option then
      o ← encode s2 o; Ok (0, LOG (message_ o) out)
    else if bool_decide (option = [45; 100]) then
      o ← decode o; Ok (0, LOG (message_ o) out)
    else Ok (1, print_usage out).

(** [main]: [args] are the program name and the arguments after it. *)
Definition main (args : list str) : outcome (Z * list str) :=
  let argc := Z.of_nat (length args) in
  (* argv[0] is the name of program. drop it for convenience. *)
  let argc := argc - 1 in
  let argv := tail args in
  run argc argv (ebh []) [].
End Run.

(** ** base64encode with its bit count left open *)

(** The loop of base64encode and the whole of its body, with [bits] a
    parameter in place of [len * 9]: base64encode is
    [base64encode_bits s2 (encode_bits len)]. *)
Definition encode_rounds (s2 bits : Z) (o : EasterBugHunt) : outcome (Z * Z * str) :=
  let message := push_back (push_back (push_back (message_ o) 0) 0) 0 in
  while_loop (Z.to_nat bits) (fun '(done, _, _) => done <? bits)
    (encode_round s2 message (base64table_ o) bits) (0, 0, []).

Definition base64encode_bits (s2 bits : Z) (o : EasterBugHunt) : outcome EasterBugHunt :=
  '(_, _, dst) ← encode_rounds s2 bits o;
  (* correct the size of the output. *)
  let dst_len := Z.quot (bits + 5) 6 in
  dst ← resize_ dst dst_len 0;
  (* update message_ *)
  Ok (set_message o dst).

(** * Properties *)

(** ** Outcomes and loops *)

Lemma bind_Ok {A B : Type} (o : outcome A) (k : A -> outcome B) (b : B) :
  o ≫= k = Ok b -> exists a, o = Ok a /\ k a = Ok b.
Proof. destruct o; simpl; intros H; try discriminate. eauto. Qed.

Lemma ret_bind {A B : Type} (a : A) (k : A -> outcome B) : Ok a ≫= k = k a.
Proof. reflexivity. Qed.

Section WhileLoop.
Context {S : Type} (cond : S -> bool) (body : S -> outcome S).

Lemma while_loop_false fuel s :
  cond s = false -> while_loop fuel cond body s = Ok s.
Proof. intros H. destruct fuel; simpl; rewrite H; reflexivity. Qed.

Lemma while_loop_true fuel s :
  cond s = true ->
  while_loop (Datatypes.S fuel) cond body s
  = body s ≫= while_loop fuel cond body.
Proof. intros H. simpl. rewrite H. reflexivity. Qed.

(** A loop that returns has left through its test. *)
Lemma while_loop_exit fuel s s' :
  while_loop fuel cond body s = Ok s' -> cond s' = false.
Proof.
  revert s. induction fuel as [|fuel IH]; intros s; simpl.
  - destruct (cond s) eqn:E; [discriminate | congruence].
  - destruct (cond s) eqn:E; [| congruence].
    intros H. apply bind_Ok in H as (s1 & _ & H). eauto.
Qed.

(** The variant: positive while the test holds, smaller after the body. *)
Variable variant : S -> nat.
Hypothesis variant_pos : forall s, cond s = true -> (0 < variant s)%nat.
Hypothesis variant_decr :
  forall s s', cond s = true -> body s = Ok s' -> (variant s' < variant s)%nat.
Hypothesis body_fuel : forall s, body s <> NoFuel.

Lemma while_loop_fuel fuel s :
  (variant s <= fuel)%nat -> while_loop fuel cond body s <> NoFuel.
Proof.
  revert s. induction fuel as [|fuel IH]; intros s Hle; simpl.
  - destruct (cond s) eqn:E; [| discriminate].
    apply variant_pos in E. lia.
  - destruct (cond s) eqn:E; [| discriminate].
    destruct (body s) as [s1| | |] eqn:Eb; simpl; try discriminate.
    + apply IH. specialize (variant_decr _ _ E Eb). lia.
    + exfalso. eapply body_fuel; eauto.
Qed.
End WhileLoop.

Lemma while_loop_no_throw {S : Type} (cond : S -> bool) (body : S -> outcome S) :
  (forall s e, body s <> Throw e) ->
  forall fuel s e, while_loop fuel cond body s <> Throw e.
Proof.
  intros Hb fuel. induction fuel as [|fuel IH]; intros s e; simpl.
  - destruct (cond s); discriminate.
  - destruct (cond s); [| discriminate].
    destruct (body s) as [s1|e1| |] eqn:Eb; simpl; try discriminate.
    + apply IH.
    + exfalso. eapply Hb; eauto.
Qed.

(** Loops with an invariant. *)
Lemma while_loop_invariant {S : Type} (cond : S -> bool) (body : S -> outcome S)
    (I : S -> Prop) :
  (forall s s', cond s = true -> I s -> body s = Ok s' -> I s') ->
  forall fuel s s', I s -> while_loop fuel cond body s = Ok s' ->
                    I s' /\ cond s' = false.
Proof.
  intros Hstep fuel. induction fuel as [|fuel IH]; intros s s' Hs; simpl.
  - destruct (cond s) eqn:E; [discriminate |]. intros [= <-]. auto.
  - destruct (cond s) eqn:E; [| intros [= <-]; auto].
    intros H. apply bind_Ok in H as (s1 & Hb & H). eauto.
Qed.

(** ** Characters *)

Lemma to_char_is_char x : is_char (to_char x).
Proof. unfold is_char, to_char. apply Z.mod_pos_bound. lia. Qed.

Lemma to_char_id c : is_char c -> to_char c = c.
Proof. unfold is_char, to_char. intros H. apply Z.mod_small. lia. Qed.

Lemma char_val_mod c : is_char c -> char_val c mod 256 = c.
Proof.
  unfold is_char, char_val. intros H. destruct (c <? 128) eqn:E.
  - apply Z.mod_small. lia.
  - replace (c - 256) with (c + (-1) * 256) by lia.
    rewrite Z.mod_add by lia. apply Z.mod_small. lia.
Qed.

Lemma lxor_mod_256 a b : Z.lxor a b mod 256 = Z.lxor (a mod 256) (b mod 256).
Proof.
  change 256 with (2 ^ 8). rewrite <- !Z.land_ones by lia.
  apply Z.bits_inj'. intros n Hn.
  rewrite !Z.lxor_spec, !Z.land_spec, !Z.lxor_spec.
  destruct (Z.testbit (Z.ones 8) n); rewrite ?andb_true_r, ?andb_false_r; reflexivity.
Qed.

Lemma char_xor_is_char c m : is_char (char_xor c m).
Proof. apply to_char_is_char. Qed.

(** On characters it is the exclusive or of the bit patterns. *)
Lemma char_xor_lxor c m : is_char c -> is_char m -> char_xor c m = Z.lxor c m.
Proof.
  intros Hc Hm. unfold char_xor, to_char.
  rewrite lxor_mod_256, !char_val_mod by assumption. reflexivity.
Qed.

Lemma char_xor_involutive c m :
  is_char c -> is_char m -> char_xor (char_xor c m) m = c.
Proof.
  intros Hc Hm.
  rewrite (char_xor_lxor (char_xor c m) m) by auto using char_xor_is_char.
  rewrite char_xor_lxor by assumption.
  rewrite Z.lxor_assoc, Z.lxor_nilpotent, Z.lxor_0_r. reflexivity.
Qed.

(** The key is stored through [^=], which keeps its low eight bits. *)
Lemma diffusion_key_low_bits h :
  is_char h -> to_char (diffusion_key h) = (6 * h) mod 256.
Proof.
  intros Hh. unfold to_char, diffusion_key, kPi.
  replace (2 * 3 * char_val h) with (6 * char_val h) by lia.
  rewrite <- Z.mul_mod_idemp_r, char_val_mod by (assumption || lia).
  reflexivity.
Qed.

(** ** std::string accessors inside the buffer *)

Lemma at_in (s : str) (k : nat) (c : Z) :
  s !! k = Some c -> at_ s (Z.of_nat k) = Ok c.
Proof.
  intros H. unfold at_.
  destruct (Z.ltb_spec (Z.of_nat k) 0); [lia |].
  rewrite Nat2Z.id, H. reflexivity.
Qed.

Lemma assign_in (s : str) (k : nat) (x : Z) :
  (k < length s)%nat -> assign s (Z.of_nat k) x = Ok (<[k := to_char x]> s).
Proof.
  intros H. unfold assign, size.
  destruct (Z.ltb_spec (Z.of_nat k) 0); [lia |].
  destruct (Z.ltb_spec (Z.of_nat k) (Z.of_nat (length s))); [| lia].
  rewrite Nat2Z.id. reflexivity.
Qed.

Lemma xor_assign_in (s : str) (k : nat) (c m : Z) :
  s !! k = Some c ->
  xor_assign s (Z.of_nat k) (char_val m) = Ok (<[k := char_xor c m]> s).
Proof.
  intros H. unfold xor_assign. rewrite (at_in _ _ _ H). simpl.
  apply assign_in. eapply lookup_lt_Some; eauto.
Qed.

(** ** The mask of duffs_device, position by position *)

Lemma length_xor_range f i n s : length (xor_range f i n s) = length s.
Proof. apply length_imap. Qed.

Lemma lookup_xor_range f i n (s : str) (j : nat) :
  xor_range f i n s !! j =
  (fun c => if decide (i <= j < i + n)%nat then char_xor c (f j) else c) <$> s !! j.
Proof. unfold xor_range. rewrite list_lookup_imap. reflexivity. Qed.

Lemma xor_range_0 f i (s : str) : xor_range f i 0 s = s.
Proof.
  apply list_eq. intros j. rewrite lookup_xor_range.
  destruct (s !! j); simpl; [| reflexivity].
  destruct (decide _); [lia | reflexivity].
Qed.

Lemma xor_range_S f i n (s : str) (c : Z) :
  s !! (i + n)%nat = Some c ->
  <[(i + n)%nat := char_xor c (f (i + n)%nat)]> (xor_range f i n s)
  = xor_range f i (S n) s.
Proof.
  intros H. apply list_eq. intros j.
  destruct (decide (j = (i + n)%nat)) as [->|Hne].
  - rewrite list_lookup_insert_eq
      by (rewrite length_xor_range; eapply lookup_lt_Some; eauto).
    rewrite lookup_xor_range, H. simpl.
    destruct (decide _); [reflexivity | lia].
  - rewrite list_lookup_insert_ne by congruence.
    rewrite !lookup_xor_range. destruct (s !! j); simpl; [| reflexivity].
    repeat destruct (decide _); try reflexivity; lia.
Qed.

Lemma xor_step_range f i n (s : str) m :
  (i + n < length s)%nat -> f (i + n)%nat = m ->
  xor_step m (Z.of_nat (i + n), xor_range f i n s)
  = Ok (Z.of_nat (i + S n), xor_range f i (S n) s).
Proof.
  intros Hlt <-. unfold xor_step.
  destruct (lookup_lt_is_Some_2 s (i + n)%nat Hlt) as [c Hc].
  assert (Hr : xor_range f i n s !! (i + n)%nat = Some c).
  { rewrite lookup_xor_range, Hc. simpl. destruct (decide _); [lia | reflexivity]. }
  rewrite (xor_assign_in _ _ _ _ Hr). simpl.
  rewrite (xor_range_S _ _ _ _ _ Hc).
  repeat f_equal. lia.
Qed.

Section DuffRun.
Variables m0 m1 m2 m3 : Z.
Variable f : nat -> Z.
Variable s : str.
(** The range starts at [i]; the loop is entered after [n0] characters. *)
Variables i n0 : nat.
Hypothesis f_cycle :
  forall q : nat,
    f (i + (n0 + 4 * q))%nat = m0 /\ f (i + (n0 + 4 * q + 1))%nat = m1 /\
    f (i + (n0 + 4 * q + 2))%nat = m2 /\ f (i + (n0 + 4 * q + 3))%nat = m3.

Lemma case_0_range (n : nat) :
  (exists q, n = n0 + 4 * q)%nat -> (i + n + 4 <= length s)%nat ->
  case_0 m0 m1 m2 m3 (Z.of_nat (i + n), xor_range f i n s)
  = Ok (Z.of_nat (i + (n + 4)), xor_range f i (n + 4) s).
Proof.
  intros [q ->] Hlen. destruct (f_cycle q) as (F0 & F1 & F2 & F3).
  unfold case_0, case_3, case_2, case_1.
  rewrite (xor_step_range f i _ s m0), ret_bind by (assumption || lia).
  rewrite (xor_step_range f i _ s m1), ret_bind
    by (lia || (rewrite <- F1; f_equal; lia)).
  rewrite (xor_step_range f i _ s m2), ret_bind
    by (lia || (rewrite <- F2; f_equal; lia)).
  rewrite (xor_step_range f i _ s m3)
    by (lia || (rewrite <- F3; f_equal; lia)).
  do 2 f_equal; [lia | f_equal; lia].
Qed.

Lemma while_range (stop : Z) (r : nat) :
  forall (q fuel : nat),
    stop = Z.of_nat (i + (n0 + 4 * q) + 4 * r) ->
    (i + (n0 + 4 * q) + 4 * r <= length s)%nat -> (r <= fuel)%nat ->
    while_loop fuel (fun st => fst st <? stop) (case_0 m0 m1 m2 m3)
      (Z.of_nat (i + (n0 + 4 * q)), xor_range f i (n0 + 4 * q) s)
    = Ok (stop, xor_range f i (n0 + 4 * q + 4 * r) s).
Proof.
  induction r as [|r IH]; intros q fuel Hstop Hlen Hfuel.
  - rewrite while_loop_false by (cbn [fst]; apply Z.ltb_ge; lia).
    do 2 f_equal; [lia | f_equal; lia].
  - destruct fuel as [|fuel]; [lia |].
    rewrite while_loop_true by (cbn [fst]; apply Z.ltb_lt; lia).
    rewrite case_0_range, ret_bind by (eauto || lia).
    replace (n0 + 4 * q + 4)%nat with (n0 + 4 * S q)%nat by lia.
    rewrite (IH (S q) fuel) by lia.
    do 3 f_equal; lia.
Qed.
End DuffRun.

Ltac Zify.zify_post_hook ::= Z.to_euclidean_division_equations.

Lemma duffs_mask_at_val mask lp j t :
  (Z.of_nat j - 2 * lp) mod 4 = t -> duffs_mask_at mask lp j = mask_byte mask t.
Proof. intros <-. reflexivity. Qed.

Lemma duffs_mask_cycle mask (rem : nat) :
  forall q : nat,
    duffs_mask_at mask (Z.of_nat rem) (rem + (rem + 4 * q)) = mask_byte mask 0 /\
    duffs_mask_at mask (Z.of_nat rem) (rem + (rem + 4 * q + 1)) = mask_byte mask 1 /\
    duffs_mask_at mask (Z.of_nat rem) (rem + (rem + 4 * q + 2)) = mask_byte mask 2 /\
    duffs_mask_at mask (Z.of_nat rem) (rem + (rem + 4 * q + 3)) = mask_byte mask 3.
Proof. intros q. repeat split; apply duffs_mask_at_val; lia. Qed.

Section DuffLong.
Variable mask : Z.
Variable s : str.
Variables rem r : nat.
Hypothesis length_s : length s = (rem + 4 * S r)%nat.
Hypothesis rem_lt : (rem < 4)%nat.

Let f := duffs_mask_at mask (Z.of_nat rem).
Let stop := size s - (4 - Z.of_nat rem).

(** A statement of the partial pass that the [switch] jumps into. *)
Lemma entry_step (n : nat) (m zk : Z) :
  (n < rem)%nat -> (Z.of_nat n - Z.of_nat rem) mod 4 = m ->
  zk = Z.of_nat (rem + n) ->
  xor_step (mask_byte mask m) (zk, xor_range f rem n s)
  = Ok (Z.of_nat (rem + S n), xor_range f rem (S n) s).
Proof.
  intros Hn Hm ->. apply xor_step_range; [lia |].
  apply duffs_mask_at_val. lia.
Qed.

(** The rounds of the loop after it. *)
Lemma rounds (zk : Z) :
  zk = Z.of_nat (rem + rem) ->
  duffs_while (mask_byte mask 0) (mask_byte mask 1) (mask_byte mask 2)
    (mask_byte mask 3) stop (zk, xor_range f rem rem s)
  = Ok (stop, duffs_masked mask s).
Proof.
  intros ->. unfold duffs_while. cbn [fst].
  pose proof (while_range _ _ _ _ f s rem rem (duffs_mask_cycle mask rem)
                stop r 0 (Z.to_nat (stop - Z.of_nat (rem + rem)))) as Hw.
  replace (rem + (rem + 4 * 0))%nat with (rem + rem)%nat in Hw by lia.
  replace (rem + 4 * 0)%nat with rem in Hw by lia.
  rewrite Hw by (subst stop; unfold size; lia).
  unfold duffs_masked, size.
  replace (Z.of_nat (length s) mod 4) with (Z.of_nat rem) by lia.
  rewrite Nat2Z.id. fold f. do 3 f_equal. lia.
Qed.
End DuffLong.

Lemma duffs_device_long mask o :
  4 <= size (message_ o) ->
  duffs_device mask o = Ok (set_message o (duffs_masked mask (message_ o))).
Proof.
  destruct o as [s t]. unfold size. cbn [message_]. intros Hlen.
  set (rem := (length s mod 4)%nat).
  set (r := ((length s - 4) / 4)%nat).
  assert (HL : length s = (rem + 4 * S r)%nat) by (subst rem r; lia).
  assert (Hrem : (rem < 4)%nat) by (subst rem; lia).
  assert (Hr : Z.rem (size s) 4 = Z.of_nat rem).
  { unfold size. rewrite Z.rem_mod_nonneg by lia. subst rem. lia. }
  pose proof (entry_step mask s rem r HL Hrem) as Hstep.
  pose proof (rounds mask s rem r HL Hrem) as Hw.
  unfold duffs_device. cbn [message_]. rewrite Hr.
  change (to_char (Z.shiftr mask 24)) with (mask_byte mask 0).
  change (to_char (Z.shiftr mask 16)) with (mask_byte mask 1).
  change (to_char (Z.shiftr mask 8)) with (mask_byte mask 2).
  change (to_char mask) with (mask_byte mask 3).
  rewrite <- (xor_range_0 (duffs_mask_at mask (Z.of_nat rem)) rem s) at 2.
  clearbody rem r.
  destruct rem as [|[|[|[|?]]]]; [| | | | lia].
  - change (Z.of_nat 0) with 0. cbn [duffs_switch].
    rewrite Hw by reflexivity. reflexivity.
  - change (Z.of_nat 1) with 1. cbn [duffs_switch]. unfold case_1.
    rewrite (Hstep 0%nat 3), ret_bind by (reflexivity || lia).
    rewrite Hw by reflexivity. reflexivity.
  - change (Z.of_nat 2) with 2. cbn [duffs_switch]. unfold case_2, case_1.
    rewrite (Hstep 0%nat 2), ret_bind by (reflexivity || lia).
    rewrite (Hstep 1%nat 3), ret_bind by (reflexivity || lia).
    rewrite Hw by reflexivity. reflexivity.
  - change (Z.of_nat 3) with 3. cbn [duffs_switch]. unfold case_3, case_2, case_1.
    rewrite (Hstep 0%nat 1), ret_bind by (reflexivity || lia).
    rewrite (Hstep 1%nat 2), ret_bind by (reflexivity || lia).
    rewrite (Hstep 2%nat 3), ret_bind by (reflexivity || lia).
    rewrite Hw by reflexivity. reflexivity.
Qed.

Lemma duffs_device_empty mask o :
  message_ o = [] -> duffs_device mask o = Ok o.
Proof. destruct o as [s t]. cbn [message_]. intros ->. reflexivity. Qed.

(** Fewer than four characters: the partial pass that the [switch] jumps
    into starts at [message_[len]].  A store of zero into the terminator
    is the only one that is defined. *)
Lemma duffs_device_short mask o :
  0 < size (message_ o) < 4 ->
  duffs_device mask o = UB \/
  (size (message_ o) = 1 /\ mask_byte mask 3 = 0 /\ duffs_device mask o = Ok o).
Proof.
  destruct o as [s t]. unfold size. cbn [message_]. intros Hlen.
  destruct s as [|a [|b [|c [|d s]]]]; cbn [length] in Hlen; try lia.
  - unfold duffs_device. cbn [message_].
    change (size [a]) with 1. change (Z.rem 1 4) with 1.
    cbn [duffs_switch]. unfold case_1, xor_step, xor_assign.
    change (at_ [a] 1) with (@Ok Z 0). rewrite ret_bind.
    unfold assign. change (1 <? 0) with false. change (1 <? size [a]) with false.
    change (1 =? size [a]) with true. cbn [andb].
    change (char_val 0) with 0. rewrite Z.lxor_0_l.
    change (to_char mask) with (mask_byte mask 3).
    assert (E : to_char (char_val (mask_byte mask 3)) = mask_byte mask 3).
    { apply char_val_mod, to_char_is_char. }
    rewrite E. destruct (Z.eqb_spec (mask_byte mask 3) 0) as [E0|E0].
    + right. split; [reflexivity | split; [assumption | reflexivity]].
    + left. reflexivity.
  - left. unfold duffs_device. cbn [message_].
    change (size [a; b]) with 2. change (Z.rem 2 4) with 2.
    cbn [duffs_switch]. unfold case_2, case_1, xor_step, xor_assign.
    change (at_ [a; b] 2) with (@Ok Z 0). rewrite ret_bind.
    unfold assign. change (2 <? 0) with false. change (2 <? size [a; b]) with false.
    change (2 =? size [a; b]) with true. cbn [andb].
    destruct (_ =? 0); reflexivity.
  - left. unfold duffs_device. cbn [message_].
    change (size [a; b; c]) with 3. change (Z.rem 3 4) with 3.
    cbn [duffs_switch]. unfold case_3, case_2, case_1, xor_step, xor_assign.
    change (at_ [a; b; c] 3) with (@Ok Z 0). rewrite ret_bind.
    unfold assign. change (3 <? 0) with false.
    change (3 <? size [a; b; c]) with false.
    change (3 =? size [a; b; c]) with true. cbn [andb].
    destruct (_ =? 0); reflexivity.
Qed.

Lemma size_cases (s : str) : size s = 0 \/ 0 < size s < 4 \/ 4 <= size s.
Proof. unfold size. lia. Qed.

Lemma size_0 (s : str) : size s = 0 -> s = [].
Proof. destruct s; [reflexivity | unfold size; cbn [length]; lia]. Qed.

Lemma mask_byte_is_char mask k : is_char (mask_byte mask k).
Proof. apply to_char_is_char. Qed.

Lemma duffs_masked_involutive mask (s : str) :
  Forall is_char s -> duffs_masked mask (duffs_masked mask s) = s.
Proof.
  intros Hs. unfold duffs_masked at 1.
  assert (E : size (duffs_masked mask s) = size s).
  { unfold size, duffs_masked. rewrite length_xor_range. reflexivity. }
  rewrite E. unfold duffs_masked.
  apply list_eq. intros j. rewrite !lookup_xor_range.
  destruct (s !! j) as [c|] eqn:Ej; simpl; [| reflexivity].
  destruct (decide _); [| reflexivity].
  f_equal. apply char_xor_involutive.
  - eapply Forall_lookup_1; eauto.
  - apply mask_byte_is_char.
Qed.

Lemma duffs_masked_is_char mask (s : str) :
  Forall is_char s -> Forall is_char (duffs_masked mask s).
Proof.
  intros Hs. apply Forall_lookup_2. intros j c. unfold duffs_masked.
  rewrite lookup_xor_range. destruct (s !! j) as [c'|] eqn:Ej; simpl; [| discriminate].
  intros [= <-]. destruct (decide _).
  - apply char_xor_is_char.
  - eapply Forall_lookup_1; eauto.
Qed.

(** ** The diffusion never returns *)

Lemma at_cases (s : str) (pos : Z) : (exists c, at_ s pos = Ok c) \/ at_ s pos = UB.
Proof.
  unfold at_. destruct (pos <? 0); [right; reflexivity |].
  destruct (s !! Z.to_nat pos); [left; eauto |].
  destruct (pos =? size s); [left; eauto | right; reflexivity].
Qed.

Lemma at_inside (s : str) (pos : Z) :
  0 <= pos <= size s -> exists c, at_ s pos = Ok c.
Proof.
  unfold at_, size. intros H.
  destruct (Z.ltb_spec pos 0); [lia |].
  destruct (s !! Z.to_nat pos) eqn:El; [eauto |].
  destruct (Z.eqb_spec pos (Z.of_nat (length s))) as [E|E]; [eauto |].
  apply lookup_ge_None in El. lia.
Qed.

Lemma at_outside (s : str) (pos : Z) : size s < pos -> at_ s pos = UB.
Proof.
  unfold at_, size. intros H.
  destruct (Z.ltb_spec pos 0); [reflexivity |].
  rewrite lookup_ge_None_2 by lia.
  destruct (Z.eqb_spec pos (Z.of_nat (length s))); [lia | reflexivity].
Qed.

Lemma substr_1_nil : substr [] 1 = Throw out_of_range.
Proof. reflexivity. Qed.

Lemma substr_1_cons h (t : str) : substr (h :: t) 1 = Ok t.
Proof.
  unfold substr, size. cbn [length].
  destruct (Z.ltb_spec (Z.of_nat (S (length t))) 1); [lia |]. reflexivity.
Qed.

Lemma for_loop_empty lo hi body (s : str) :
  hi <= lo -> for_loop lo hi body s = Ok s.
Proof.
  intros H. unfold for_loop.
  rewrite while_loop_false by (cbn [fst]; apply Z.ltb_ge; lia). reflexivity.
Qed.

(** The test that should stop the recursion compares [1], not [l], with
    [0]: every call goes on to [message.substr(1)], and the call on the
    empty string throws there. *)
Lemma xor_head_with_tail_rec_throws (fuel : nat) :
  forall (message : str) (encoding : bool),
    (length message < fuel)%nat ->
    xor_head_with_tail_rec fuel message encoding = Throw out_of_range.
Proof.
  induction fuel as [|fuel IH]; intros message encoding Hlen; [lia |].
  cbn [xor_head_with_tail_rec]. change (1 =? 0) with false. cbv iota.
  destruct (at_inside message 0) as [h Hh]; [unfold size; lia |].
  rewrite Hh, ret_bind.
  destruct encoding.
  - destruct message as [|c t].
    + rewrite substr_1_nil. reflexivity.
    + rewrite substr_1_cons, ret_bind.
      rewrite IH by (cbn [length] in Hlen; lia). reflexivity.
  - rewrite for_loop_empty, ret_bind by lia.
    destruct message as [|c t].
    + rewrite substr_1_nil. reflexivity.
    + rewrite substr_1_cons, ret_bind.
      rewrite IH by (cbn [length] in Hlen; lia). reflexivity.
Qed.

(** ** base64decode *)

Lemma decode_round_inside message table bits done si dst :
  0 <= si -> si + 4 <= size message ->
  exists dst', decode_round message table bits (done, si, dst)
               = Ok (done + 24, si + 5, dst') /\ length dst' = (length dst + 3)%nat.
Proof.
  intros H0 H4. unfold decode_round.
  destruct (at_inside message si) as [c0 ->]; [lia |]. rewrite ret_bind.
  destruct (at_inside message (si + 1)) as [c1 ->]; [lia |]. rewrite ret_bind.
  destruct (at_inside message (si + 1 + 1)) as [c2 ->]; [lia |]. rewrite ret_bind.
  destruct (at_inside message (si + 1 + 1 + 1)) as [c3 ->]; [lia |]. rewrite ret_bind.
  destruct (at_inside message (si + 1 + 1 + 1 + 1)) as [c4 ->]; [lia |]. rewrite ret_bind.
  eexists. split.
  - do 3 f_equal. lia.
  - unfold push_back. rewrite !length_app. cbn [length]. lia.
Qed.

Lemma decode_round_cases message table bits st :
  (exists done si dst dst', st = (done, si, dst) /\
     decode_round message table bits st = Ok (done + 24, si + 5, dst')) \/
  decode_round message table bits st = UB.
Proof.
  destruct st as [[done si] dst]. unfold decode_round.
  destruct (at_cases message si) as [[c0 ->]| ->]; [| right; reflexivity].
  rewrite ret_bind.
  destruct (at_cases message (si + 1)) as [[c1 ->]| ->]; [| right; reflexivity].
  rewrite ret_bind.
  destruct (at_cases message (si + 1 + 1)) as [[c2 ->]| ->]; [| right; reflexivity].
  rewrite ret_bind.
  destruct (at_cases message (si + 1 + 1 + 1)) as [[c3 ->]| ->]; [| right; reflexivity].
  rewrite ret_bind.
  destruct (at_cases message (si + 1 + 1 + 1 + 1)) as [[c4 ->]| ->]; [| right; reflexivity].
  rewrite ret_bind.
  left. do 4 eexists. split; [reflexivity |]. do 3 f_equal. lia.
Qed.

Section DecodeLoop.
Variables message table : str.
Variable bits : Z.

Let cond : Z * Z * str -> bool := fun '(done, _, _) => done <? bits.
Let body := decode_round message table bits.
Let variant : Z * Z * str -> nat := fun '(done, _, _) => Z.to_nat (bits - done).

Lemma decode_loop_fuel fuel st :
  (variant st <= fuel)%nat -> while_loop fuel cond body st <> NoFuel.
Proof.
  apply (while_loop_fuel cond body variant).
  - intros [[done si] dst]. cbn. intros H%Z.ltb_lt. lia.
  - intros [[done si] dst] s' Hc Hb. cbn in Hc. apply Z.ltb_lt in Hc.
    destruct (decode_round_cases message table bits (done, si, dst))
      as [(d & i & t & t' & [= <- <- <-] & E)|E];
      unfold body in Hb; rewrite E in Hb; [| discriminate].
    injection Hb as <-. cbn. lia.
  - intros st' Hb.
    destruct (decode_round_cases message table bits st')
      as [(d & i & t & t' & _ & E)|E];
      unfold body in Hb; rewrite E in Hb; discriminate.
Qed.

Lemma decode_loop_no_throw fuel st e : while_loop fuel cond body st <> Throw e.
Proof.
  apply while_loop_no_throw. intros st' e' Hb.
  destruct (decode_round_cases message table bits st')
    as [(d & i & t & t' & _ & E)|E];
    unfold body in Hb; rewrite E in Hb; discriminate.
Qed.

(** The loop returns when the five reads of its last round stay inside
    the buffer and its terminator. *)
Lemma decode_loop_inside (r : nat) :
  forall (j : Z) (dst : str) (fuel : nat),
    0 <= j -> bits <= 24 * (j + Z.of_nat r) ->
    (r = 0%nat \/ 5 * (j + Z.of_nat r) <= size message + 1) ->
    (r <= fuel)%nat ->
    exists st', while_loop fuel cond body (24 * j, 5 * j, dst) = Ok st'.
Proof.
  induction r as [|r IH]; intros j dst fuel Hj Hbits Hin Hfuel.
  - rewrite while_loop_false by (cbn; apply Z.ltb_ge; lia). eauto.
  - destruct (Z.ltb_spec (24 * j) bits) as [Hlt|Hge].
    + destruct fuel as [|fuel]; [lia |].
      rewrite while_loop_true by (cbn; apply Z.ltb_lt; lia).
      destruct (decode_round_inside message table bits (24 * j) (5 * j) dst)
        as (dst' & E & _); [lia | lia |].
      unfold body. rewrite E, ret_bind.
      replace (24 * j + 24) with (24 * (j + 1)) by lia.
      replace (5 * j + 5) with (5 * (j + 1)) by lia.
      apply IH; lia.
    + rewrite while_loop_false by (cbn; apply Z.ltb_ge; lia). eauto.
Qed.
End DecodeLoop.

Lemma decode_rounds_inside o :
  decode_reads_inside (size (message_ o)) -> exists dst, decode_rounds o = Ok dst.
Proof.
  unfold decode_reads_inside, decode_rounds, decode_bits.
  set (len := size (message_ o)). intros Hin.
  assert (Hlen : 0 <= len) by (subst len; unfold size; lia).
  destruct (decode_loop_inside
              (push_back (push_back (push_back (push_back (message_ o) 45) 61) 61) 61)
              (base64table_ o) (len * 6) (Z.to_nat ((len + 3) / 4)) 0 []
              (Z.to_nat (len * 6))) as [[[done si] dst] E]; try lia.
  - right. unfold push_back, size. rewrite !length_app. cbn [length].
    subst len. unfold size in *. lia.
  - change (24 * 0) with 0 in E. change (5 * 0) with 0 in E.
    rewrite E. eauto.
Qed.

Lemma decode_rounds_outcome o :
  match decode_rounds o with
  | Ok _ | UB => True
  | Throw _ | NoFuel => False
  end.
Proof.
  unfold decode_rounds.
  set (message := push_back _ _). set (bits := decode_bits _).
  pose proof (decode_loop_fuel message (base64table_ o) bits
                (Z.to_nat bits) (0, 0, [])) as Hf.
  pose proof (decode_loop_no_throw message (base64table_ o) bits
                (Z.to_nat bits) (0, 0, [])) as Ht.
  destruct (while_loop _ _ _ _) as [[[done si] dst]|e| |]; cbn; auto.
  - eapply Ht; reflexivity.
  - apply Hf; [cbn; lia | reflexivity].
Qed.

(** The length correction: whatever the last character is, one more
    character than the trailing-zero test asks for is dropped. *)
Lemma decode_strip_spec (len : Z) (dst : str) :
  0 < len ->
  decode_strip len dst
  = Ok (take (Z.to_nat (decode_dst_len len - 1)) (resize (Z.to_nat len) 0 dst)).
Proof.
  intros Hlen. unfold decode_strip, resize_.
  destruct (Z.ltb_spec len 0); [lia |]. rewrite ret_bind.
  change (to_char 0) with 0.
  set (d := resize (Z.to_nat len) 0 dst).
  assert (Hd : length d = Z.to_nat len) by apply length_resize.
  unfold back. destruct (last d) as [c|] eqn:El.
  - rewrite ret_bind.
    assert (Hq : 1 <= decode_dst_len len <= len).
    { unfold decode_dst_len, decode_bits. lia. }
    destruct (c =? 0); rewrite ret_bind;
      (destruct (Z.ltb_spec (decode_dst_len len - 1) 0); [lia |]);
      rewrite resize_le by lia; reflexivity.
  - apply last_None in El. rewrite El in Hd. cbn [length] in Hd. lia.
Qed.

Lemma decode_round_outside message table bits done si dst :
  size message < si + 4 ->
  decode_round message table bits (done, si, dst) = UB.
Proof.
  intros H. unfold decode_round.
  destruct (at_cases message si) as [[c0 ->]| ->]; [| reflexivity].
  rewrite ret_bind.
  destruct (at_cases message (si + 1)) as [[c1 ->]| ->]; [| reflexivity].
  rewrite ret_bind.
  destruct (at_cases message (si + 1 + 1)) as [[c2 ->]| ->]; [| reflexivity].
  rewrite ret_bind.
  destruct (at_cases message (si + 1 + 1 + 1)) as [[c3 ->]| ->]; [| reflexivity].
  rewrite ret_bind.
  rewrite at_outside by lia. reflexivity.
Qed.

(** The loop is undefined when its last round reads past the terminator. *)
Lemma decode_loop_outside message table bits (r : nat) :
  forall (j : Z) (dst : str) (fuel : nat),
    0 <= j -> 24 * (j + Z.of_nat r) < bits ->
    size message + 1 < 5 * (j + Z.of_nat r + 1) ->
    (r < fuel)%nat ->
    while_loop fuel (fun '(done, _, _) => done <? bits)
      (decode_round message table bits) (24 * j, 5 * j, dst) = UB.
Proof.
  induction r as [|r IH]; intros j dst fuel Hj Hbits Hout Hfuel.
  - destruct fuel as [|fuel]; [lia |].
    rewrite while_loop_true by (cbn; apply Z.ltb_lt; lia).
    rewrite decode_round_outside by lia. reflexivity.
  - destruct fuel as [|fuel]; [lia |].
    rewrite while_loop_true by (cbn; apply Z.ltb_lt; lia).
    destruct (decode_round_cases message table bits (24 * j, 5 * j, dst))
      as [(d & i & t & t' & [= <- <- <-] & E)|E]; rewrite E; [| reflexivity].
    rewrite ret_bind.
    replace (24 * j + 24) with (24 * (j + 1)) by lia.
    replace (5 * j + 5) with (5 * (j + 1)) by lia.
    apply IH; lia.
Qed.

Lemma decode_rounds_outside o :
  ~ decode_reads_inside (size (message_ o)) -> decode_rounds o = UB.
Proof.
  unfold decode_reads_inside, decode_rounds, decode_bits.
  set (len := size (message_ o)). intros Hout.
  assert (Hlen : 0 <= len) by (subst len; unfold size; lia).
  assert (Hr : 1 <= (len + 3) / 4) by lia.
  rewrite (decode_loop_outside _ _ _ (Z.to_nat ((len + 3) / 4 - 1)) 0).
  - reflexivity.
  - lia.
  - lia.
  - unfold push_back, size. rewrite !length_app. cbn [length].
    subst len. unfold size in *. lia.
  - lia.
Qed.

(** ** base64encode *)

Lemma encode_round_cases s2 message table bits st :
  (exists done si dst dst', st = (done, si, dst) /\
     encode_round s2 message table bits st = Ok (done + 24, si + 1, dst') /\
     length dst' = (length dst + 4)%nat) \/
  encode_round s2 message table bits st = UB.
Proof.
  destruct st as [[done si] dst]. unfold encode_round.
  destruct (at_cases message si) as [[c0 ->]| ->]; [| right; reflexivity].
  rewrite ret_bind.
  destruct (at_cases message c0) as [[c1 ->]| ->]; [| right; reflexivity].
  rewrite ret_bind. cbv zeta.
  destruct (at_cases table (to_char (Z.land (to_char (c0 + 1)) 63)))
    as [[d0 ->]| ->]; [| right; reflexivity].
  rewrite ret_bind.
  destruct (at_cases table d0) as [[d1 ->]| ->]; [| right; reflexivity].
  rewrite !ret_bind.
  left. do 4 eexists. split; [reflexivity |]. split; [reflexivity |].
  unfold push_back. rewrite !length_app. cbn [length]. lia.
Qed.

Lemma base64encode_outcome s2 o :
  match base64encode s2 o with
  | Ok o' =>
      size (message_ o') = Z.quot (encode_bits (size (message_ o)) + 5) 6 /\
      base64table_ o' = base64table_ o
  | UB => True
  | Throw _ | NoFuel => False
  end.
Proof.
  unfold base64encode.
  set (message := push_back _ _). set (bits := encode_bits _).
  assert (Hbits : 0 <= bits) by (subst bits; unfold encode_bits, size; lia).
  set (cond := fun '(done, _, _) => done <? bits).
  set (body := encode_round s2 message (base64table_ o) bits).
  assert (Hf : while_loop (Z.to_nat bits) cond body (0, 0, []) <> NoFuel).
  { apply (while_loop_fuel cond body
             (fun '(done, _, _) => Z.to_nat (bits - done))).
    - intros [[done si] dst]. cbn. intros H%Z.ltb_lt. lia.
    - intros [[done si] dst] s' Hc Hb. cbn in Hc. apply Z.ltb_lt in Hc.
      destruct (encode_round_cases s2 message (base64table_ o) bits (done, si, dst))
        as [(d & i & t & t' & [= <- <- <-] & E & _)|E];
        unfold body in Hb; rewrite E in Hb; [| discriminate].
      injection Hb as <-. cbn. lia.
    - intros st' Hb.
      destruct (encode_round_cases s2 message (base64table_ o) bits st')
        as [(d & i & t & t' & _ & E & _)|E];
        unfold body in Hb; rewrite E in Hb; discriminate.
    - cbn. lia. }
  assert (Ht : forall e, while_loop (Z.to_nat bits) cond body (0, 0, []) <> Throw e).
  { intros e. apply while_loop_no_throw. intros st' e' Hb.
    destruct (encode_round_cases s2 message (base64table_ o) bits st')
      as [(d & i & t & t' & _ & E & _)|E];
      unfold body in Hb; rewrite E in Hb; discriminate. }
  destruct (while_loop _ _ _ _) as [[[done si] dst]|e| |]; cbn.
  - unfold resize_. destruct (Z.ltb_spec (Z.quot (bits + 5) 6) 0); [lia |].
    cbn. unfold size. rewrite length_resize. split; [lia | reflexivity].
  - eapply Ht; reflexivity.
  - exact I.
  - apply Hf; reflexivity.
Qed.

(** ** duffs_device, case by case *)

Lemma duffs_device_cases mask o :
  (size (message_ o) = 0 /\ duffs_device mask o = Ok o) \/
  (0 < size (message_ o) < 4 /\
   (duffs_device mask o = UB \/
    (size (message_ o) = 1 /\ mask_byte mask 3 = 0 /\ duffs_device mask o = Ok o))) \/
  (4 <= size (message_ o) /\
   duffs_device mask o = Ok (set_message o (duffs_masked mask (message_ o)))).
Proof.
  destruct (size_cases (message_ o)) as [H|[H|H]].
  - left. split; [assumption |]. apply duffs_device_empty, size_0, H.
  - right. left. split; [assumption |]. apply duffs_device_short, H.
  - right. right. split; [assumption |]. apply duffs_device_long, H.
Qed.

Lemma set_message_id o : set_message o (message_ o) = o.
Proof. destruct o. reflexivity. Qed.

Lemma init_base64table_eval m :
  init_base64table (ebh m) = Ok (mkEBH m kBase64Table).
Proof. reflexivity. Qed.

Lemma find_from_absent (s : str) (c pos : Z) : c ∉ s -> find_from s c pos = -1.
Proof.
  revert pos. induction s as [|x s IH]; intros pos H; [reflexivity |].
  cbn [find_from]. apply not_elem_of_cons in H as [Hne Hs].
  destruct (Z.eqb_spec x c); [congruence |]. apply IH, Hs.
Qed.

Lemma base64decode_inside o :
  0 < size (message_ o) -> decode_reads_inside (size (message_ o)) ->
  exists dst,
    decode_rounds o = Ok dst /\
    base64decode o
    = Ok (set_message o
            (take (Z.to_nat (decode_dst_len (size (message_ o)) - 1))
               (resize (Z.to_nat (size (message_ o))) 0 dst))).
Proof.
  intros Hlen Hin. destruct (decode_rounds_inside o Hin) as [dst E].
  exists dst. split; [assumption |].
  unfold base64decode. rewrite E, ret_bind, decode_strip_spec by assumption.
  reflexivity.
Qed.

Lemma base64decode_outside o :
  ~ decode_reads_inside (size (message_ o)) -> base64decode o = UB.
Proof.
  intros Hout. unfold base64decode. rewrite decode_rounds_outside by assumption.
  reflexivity.
Qed.

Lemma base64decode_empty o : message_ o = [] -> base64decode o = UB.
Proof. destruct o as [s t]. cbn [message_]. intros ->. reflexivity. Qed.

(** The character that the trailing-zero test looks at is 0xFF here, and
    the length is corrected all the same. *)
Example base64decode_nonzero_last :
  decode_rounds (ebh [33]) = Ok [255; 255; 255] /\
  back (resize 1 0 [255; 255; 255]) = Ok 255 /\
  base64decode (ebh [33]) = Ok (ebh []).
Proof. repeat split; vm_compute; reflexivity. Qed.

Lemma decode_reads_inside_dec len :
  {decode_reads_inside len} + {~ decode_reads_inside len}.
Proof. unfold decode_reads_inside. apply Z_le_dec. Qed.

Lemma base64decode_cases o :
  (exists o', base64decode o = Ok o') \/ base64decode o = UB.
Proof.
  destruct (decode_reads_inside_dec (size (message_ o))) as [Hin|Hout].
  - destruct (size_cases (message_ o)) as [H0|[H|H]].
    + right. apply base64decode_empty, size_0, H0.
    + destruct (base64decode_inside o) as (dst & _ & E); [lia | assumption |].
      left. eauto.
    + destruct (base64decode_inside o) as (dst & _ & E); [lia | assumption |].
      left. eauto.
  - right. apply base64decode_outside, Hout.
Qed.

(** ** The claims *)

(** C1. For every message the pipeline should round-trip,
    [decode (encode M) = M].  It cannot: neither [encode] nor [decode]
    ever returns.  When the stage before it is defined, the diffusion
    stage throws [std::out_of_range]; [encode] does so on the empty
    message and on "Hello, World!". *)
Theorem encode_never_returns :
  (forall s2 o, encode s2 o = Throw out_of_range \/ encode s2 o = UB) /\
  (forall o, decode o = Throw out_of_range \/ decode o = UB) /\
  (forall s2, encode s2 (ebh []) = Throw out_of_range) /\
  (forall s2, encode s2 (ebh hello) = Throw out_of_range).
Proof.
  split; [| split; [| split]].
  - intros s2 o. unfold encode.
    assert (Hx : forall o1 : EasterBugHunt,
      (m ← xor_head_with_tail (message_ o1) true; base64encode s2 (set_message o1 m))
      = Throw out_of_range).
    { intros o1. unfold xor_head_with_tail.
      rewrite xor_head_with_tail_rec_throws by lia. reflexivity. }
    destruct (duffs_device_cases kDuffsMask o)
      as [[_ E]|[[_ [E|(_ & _ & E)]]|[_ E]]]; rewrite E.
    + left. rewrite ret_bind. apply Hx.
    + right. reflexivity.
    + left. rewrite ret_bind. apply Hx.
    + left. rewrite ret_bind. apply Hx.
  - intros o. unfold decode.
    destruct (base64decode_cases o) as [[o1 E]|E]; rewrite E.
    + left. rewrite ret_bind. unfold xor_head_with_tail.
      rewrite xor_head_with_tail_rec_throws by lia. reflexivity.
    + right. reflexivity.
  - intros s2. reflexivity.
  - intros s2. vm_compute. reflexivity.
Qed.

(** C2. Encoding and then decoding with xor_head_with_tail should give
    the message back.  Neither direction returns: for every message and
    either direction the call throws [std::out_of_range]. *)
Theorem xor_head_with_tail_never_returns (message : str) (encoding : bool) :
  xor_head_with_tail message encoding = Throw out_of_range.
Proof. unfold xor_head_with_tail. apply xor_head_with_tail_rec_throws. lia. Qed.

(** C3.  Applying duffs_device twice with the same mask should give the
    message back, for every message.  On a message of one to three
    characters the first application is the undefined store past the end
    and there is nothing to apply the second one to; on the empty
    message and on every message of four characters or more the two
    applications return the message. *)
Theorem duffs_device_twice_short :
  (duffs_device kDuffsMask (ebh [97]) ≫= duffs_device kDuffsMask) = UB /\
  (forall o, 0 < size (message_ o) < 4 ->
     (duffs_device kDuffsMask o ≫= duffs_device kDuffsMask) = UB) /\
  (forall mask o,
     Forall is_char (message_ o) ->
     size (message_ o) = 0 \/ 4 <= size (message_ o) ->
     (duffs_device mask o ≫= duffs_device mask) = Ok o).
Proof.
  split; [reflexivity |]. split.
  - intros o H. destruct (duffs_device_short kDuffsMask o H) as [E|(_ & E & _)].
    + rewrite E. reflexivity.
    + vm_compute in E. discriminate.
  - intros mask o Hc [H0|H4].
    + rewrite duffs_device_empty by (apply size_0, H0). rewrite ret_bind.
      apply duffs_device_empty, size_0, H0.
    + rewrite duffs_device_long by assumption. rewrite ret_bind.
      rewrite duffs_device_long.
      * destruct o as [s t]. unfold set_message. cbn [message_ base64table_] in *.
        rewrite duffs_masked_involutive by assumption. reflexivity.
      * destruct o as [s t]. cbn [set_message message_] in *.
        unfold size, duffs_masked in *. rewrite length_xor_range. assumption.
Qed.

(** C4, as stated, fails.  On five characters the one interior character
    is xor'd with m3 (0x78), not m0 (0x12); on eight characters the last
    four are left alone, where the statement has all eight xor'd. *)
Lemma mask_spec_differs :
  duffs_device kDuffsMask (ebh [0; 0; 0; 0; 0]) = Ok (ebh [0; 120; 0; 0; 0]) /\
  mask_spec kDuffsMask [0; 0; 0; 0; 0] = [0; 18; 0; 0; 0] /\
  duffs_device kDuffsMask (ebh [0; 0; 0; 0; 0; 0; 0; 0])
  = Ok (ebh [18; 52; 86; 120; 0; 0; 0; 0]) /\
  mask_spec kDuffsMask [0; 0; 0; 0; 0; 0; 0; 0] = [18; 52; 86; 120; 18; 52; 86; 120].
Proof. repeat split; vm_compute; reflexivity. Qed.

(** C4, amended.  For a message of length [L] that is empty or has four
    characters or more, duffs_device xors exactly the characters at
    [leadPad], ..., [L - trailPad - 1], with [leadPad = L mod 4] and
    [trailPad = 4 - leadPad] in every case; the character at [j] is
    xor'd with the mask byte of index [(j - 2 * leadPad) mod 4], so that
    the cycle m0, m1, m2, m3 ends on the last interior character; every
    other character and the length are unchanged. *)
Theorem duffs_device_interior mask o :
  size (message_ o) = 0 \/ 4 <= size (message_ o) ->
  let L := size (message_ o) in
  let leadPad := L mod 4 in
  let trailPad := 4 - leadPad in
  exists out : str,
    duffs_device mask o = Ok (set_message o out) /\
    length out = length (message_ o) /\
    forall (j : nat) (c : Z),
      message_ o !! j = Some c ->
      out !! j =
      Some (if (leadPad <=? Z.of_nat j) && (Z.of_nat j <=? L - trailPad - 1)
            then char_xor c (mask_byte mask ((Z.of_nat j - 2 * leadPad) mod 4))
            else c).
Proof.
  intros [H0|H4]; cbv zeta.
  - exists (message_ o). rewrite set_message_id.
    split; [apply duffs_device_empty, size_0, H0 |].
    split; [reflexivity |].
    intros j c Hj. rewrite (size_0 _ H0) in Hj. discriminate.
  - exists (duffs_masked mask (message_ o)).
    split; [apply duffs_device_long, H4 |].
    split; [apply length_xor_range |].
    intros j c Hj. unfold duffs_masked.
    rewrite lookup_xor_range, Hj. cbn [fmap option_fmap option_map]. f_equal.
    set (L := size (message_ o)) in *.
    assert (Hmod : 0 <= L mod 4 < 4) by lia.
    destruct (decide _) as [Hin|Hout].
    + destruct (Z.leb_spec (L mod 4) (Z.of_nat j)); [| lia].
      destruct (Z.leb_spec (Z.of_nat j) (L - (4 - L mod 4) - 1)); [| lia].
      reflexivity.
    + destruct (Z.leb_spec (L mod 4) (Z.of_nat j)); [| reflexivity].
      destruct (Z.leb_spec (Z.of_nat j) (L - (4 - L mod 4) - 1)); [lia |].
      reflexivity.
Qed.

Lemma duffs_device_interior_witness :
  exists out : str,
    duffs_device kDuffsMask (ebh hello) = Ok (set_message (ebh hello) out) /\
    length out = length (message_ (ebh hello)) /\
    forall (j : nat) (c : Z),
      message_ (ebh hello) !! j = Some c ->
      out !! j =
      Some (if (size (message_ (ebh hello)) mod 4 <=? Z.of_nat j) &&
               (Z.of_nat j <=? size (message_ (ebh hello))
                               - (4 - size (message_ (ebh hello)) mod 4) - 1)
            then char_xor c
                   (mask_byte kDuffsMask
                      ((Z.of_nat j - 2 * (size (message_ (ebh hello)) mod 4)) mod 4))
            else c).
Proof. apply (duffs_device_interior kDuffsMask (ebh hello)). right. vm_compute. discriminate. Defined.

Lemma PI_bounds : (31415 / 10000 <= PI < 31421 / 10000)%R.
Proof.
  pose proof (PI_2_3_7_ineq 1) as H.
  unfold sum_f_R0, tg_alt, PI_2_3_7_tg, Ratan_seq in H. simpl in H.
  lra.
Qed.

(** C5.  The key should be [floor(2π · h) mod 256].  [kPi] is an [int],
    so the program computes [6 * h]: for the head byte 'H' of "Hello,
    World!" the key is 176 where the statement gives 196, and for the
    head byte 4 it is 24 where the statement gives 25. *)
Theorem diffusion_key_not_two_pi :
  to_char (diffusion_key 72) = 176 /\ diffusion_key_spec 72 = 196 /\
  to_char (diffusion_key 4) = 24 /\ diffusion_key_spec 4 = 25.
Proof.
  pose proof PI_bounds as Hpi.
  split; [reflexivity |]. split; [| split; [reflexivity |]].
  - unfold diffusion_key_spec.
    replace (Int_part (2 * PI * 72)) with 452; [reflexivity |].
    apply Int_part_spec. simpl. lra.
  - unfold diffusion_key_spec.
    replace (Int_part (2 * PI * 4)) with 25; [reflexivity |].
    apply Int_part_spec. simpl. lra.
Qed.

(** base64encode never looks at [s2]: what it computes from it is
    overwritten before it is used. *)
Lemma base64encode_s2_irrelevant s2 s2' o : base64encode s2 o = base64encode s2' o.
Proof. reflexivity. Qed.

Lemma base64encode_bits_source s2 o :
  base64encode s2 o = base64encode_bits s2 (encode_bits (size (message_ o))) o.
Proof. reflexivity. Qed.

Lemma encode_rounds_length s2 bits o done si (dst : str) :
  encode_rounds s2 bits o = Ok (done, si, dst) ->
  bits <= done /\ 0 <= done /\ done mod 24 = 0 /\ size dst * 6 = done.
Proof.
  unfold encode_rounds. intros E.
  apply (while_loop_invariant _ _
           (fun '(done, _, dst) => 0 <= done /\ done mod 24 = 0 /\ size dst * 6 = done))
    in E as [(H0 & H24 & Hd) Hc].
  - apply Z.ltb_ge in Hc. auto.
  - intros [[d i] t] s' _ (H0 & H24 & Hd) Hb.
    destruct (encode_round_cases s2
                (push_back (push_back (push_back (message_ o) 0) 0) 0)
                (base64table_ o) bits (d, i, t))
      as [(d' & i' & t1 & t' & [= <- <- <-] & Er & Hl)|Er];
      rewrite Er in Hb; [| discriminate].
    injection Hb as <-. unfold size in *. lia.
  - unfold size. cbn [length]. lia.
Qed.

Lemma base64encode_bits_cut s2 bits o o' :
  base64encode_bits s2 bits o = Ok o' ->
  exists (done si : Z) (dst : str),
    encode_rounds s2 bits o = Ok (done, si, dst) /\
    size dst mod 4 = 0 /\
    Z.quot (bits + 5) 6 <= size dst /\
    message_ o' = take (Z.to_nat (Z.quot (bits + 5) 6)) dst /\
    base64table_ o' = base64table_ o.
Proof.
  unfold base64encode_bits. intros E.
  apply bind_Ok in E as ([[done si] dst] & Er & E).
  apply bind_Ok in E as (dst' & Ez & E). injection E as <-.
  destruct (encode_rounds_length _ _ _ _ _ _ Er) as (Hb & H0 & H24 & Hd).
  assert (Hle : Z.quot (bits + 5) 6 <= size dst).
  { unfold size in *. lia. }
  exists done, si, dst. split; [assumption |].
  split; [unfold size in *; lia |]. split; [assumption |].
  unfold resize_ in Ez. destruct (Z.ltb_spec (Z.quot (bits + 5) 6) 0); [discriminate |].
  injection Ez as <-. destruct o as [s t]. cbn [set_message message_ base64table_].
  split; [| reflexivity].
  apply resize_le. unfold size in Hle. lia.
Qed.

(** C6, as stated, fails.  Sixty-two characters '?', a 2-byte remainder,
    encode to 93 characters, whether the table is the one
    init_base64table builds or the empty one the program runs with; 93
    is not a multiple of four and no character of the output is '='.  With
    eight bits counted for each byte in place of nine the same input
    gives 83 characters, not a multiple of four either. *)
Lemma base64encode_unpadded :
  exists out out' out8 : str,
    base64encode 0 (ebh (replicate 62 63)) = Ok (ebh out) /\
    base64encode 0 (mkEBH (replicate 62 63) kBase64Table) = Ok (mkEBH out' kBase64Table) /\
    size out = 93 /\ size out' = 93 /\ 93 mod 4 = 1 /\
    last out = Some 0 /\ last out' = Some 65 /\ (61 ∉ out) /\ (61 ∉ out') /\
    base64encode_bits 0 (62 * 8) (mkEBH (replicate 62 63) kBase64Table)
    = Ok (mkEBH out8 kBase64Table) /\
    size out8 = 83 /\ 83 mod 4 = 3 /\ last out8 = Some 0.
Proof.
  do 3 eexists.
  split; [vm_compute; reflexivity |].
  split; [vm_compute; reflexivity |].
  do 5 (split; [reflexivity |]).
  split; [intros Hin%list_elem_of_In; vm_compute in Hin; intuition discriminate |].
  split; [intros Hin%list_elem_of_In; vm_compute in Hin; intuition discriminate |].
  split; [vm_compute; reflexivity |].
  repeat split.
Qed.

(** C6, amended.  Whatever number of bits the encoder sets out to encode,
    when it returns its output is what the rounds produced, four
    characters each, cut to [(bits + 5) / 6] characters: the correction
    of the size only removes characters.  Nothing is appended for a
    remainder of one or two bytes and the length is not rounded up to a
    multiple of four.  base64encode is the instance with the bit count
    of the source. *)
Theorem base64encode_cut s2 bits o o' :
  base64encode_bits s2 bits o = Ok o' ->
  (exists (done si : Z) (dst : str),
     encode_rounds s2 bits o = Ok (done, si, dst) /\
     size dst mod 4 = 0 /\
     Z.quot (bits + 5) 6 <= size dst /\
     message_ o' = take (Z.to_nat (Z.quot (bits + 5) 6)) dst /\
     base64table_ o' = base64table_ o) /\
  base64encode s2 o = base64encode_bits s2 (encode_bits (size (message_ o))) o.
Proof.
  intros E. split; [apply base64encode_bits_cut, E | apply base64encode_bits_source].
Qed.

Lemma base64encode_cut_witness :
  (exists (done si : Z) (dst : str),
     encode_rounds 0 (62 * 8) (mkEBH (replicate 62 63) kBase64Table)
     = Ok (done, si, dst) /\
     size dst mod 4 = 0 /\
     Z.quot (62 * 8 + 5) 6 <= size dst /\
     message_ (mkEBH (take 83 (concat (replicate 21 [65; 0; 0; 0]))) kBase64Table)
     = take (Z.to_nat (Z.quot (62 * 8 + 5) 6)) dst /\
     base64table_ (mkEBH (take 83 (concat (replicate 21 [65; 0; 0; 0]))) kBase64Table)
     = base64table_ (mkEBH (replicate 62 63) kBase64Table)) /\
  base64encode 0 (mkEBH (replicate 62 63) kBase64Table)
  = base64encode_bits 0
      (encode_bits (size (message_ (mkEBH (replicate 62 63) kBase64Table))))
      (mkEBH (replicate 62 63) kBase64Table).
Proof.
  apply (base64encode_cut 0 (62 * 8) (mkEBH (replicate 62 63) kBase64Table)
           (mkEBH (take 83 (concat (replicate 21 [65; 0; 0; 0]))) kBase64Table)).
  vm_compute. reflexivity.
Defined.

(** C7, as stated, fails.  '!' is neither in the table nor the padding
    character, and four of them decode to two bytes 0xFF; a single 'A',
    whose length is not a multiple of four, decodes to the empty string.
    Neither input is rejected. *)
Lemma base64decode_accepts_malformed :
  (33 ∉ kBase64Table) /\ 33 <> 61 /\
  base64decode (mkEBH [33; 33; 33; 33] kBase64Table) = Ok (mkEBH [255; 255] kBase64Table) /\
  base64decode (ebh [33; 33; 33; 33]) = Ok (ebh [255; 255]) /\
  base64decode (mkEBH [65] kBase64Table) = Ok (mkEBH [] kBase64Table) /\
  base64decode (ebh [65]) = Ok (ebh []).
Proof.
  split.
  { intros Hin%list_elem_of_In. vm_compute in Hin. intuition discriminate. }
  split; [discriminate |].
  repeat split; vm_compute; reflexivity.
Qed.

Lemma base64decode_returns_iff o :
  (exists o', base64decode o = Ok o') <->
  0 < size (message_ o) /\ decode_reads_inside (size (message_ o)).
Proof.
  split.
  - intros [o' E].
    destruct (decode_reads_inside_dec (size (message_ o))) as [Hin|Hout].
    + split; [| assumption].
      destruct (size_cases (message_ o)) as [H0|[H|H]]; [| lia | lia].
      rewrite base64decode_empty in E by (apply size_0, H0). discriminate.
    + rewrite base64decode_outside in E by assumption. discriminate.
  - intros [Hlen Hin]. destruct (base64decode_inside o Hlen Hin) as (dst & _ & E).
    eauto.
Qed.

(** C7, amended.  base64decode does not validate its input.  A
    character that is not in the table is looked up as [npos], stored as
    255, and decoded like any other; and whether base64decode returns is
    decided by the length of the input alone: of two inputs of the same
    length both are decoded or neither is, whatever their characters and
    whatever the tables. *)
Theorem base64decode_no_validation (t t' m m' : str) :
  length m = length m' ->
  (forall c, c ∉ t -> to_char (find t c) = 255) /\
  ((exists o, base64decode (mkEBH m t) = Ok o) <->
   (exists o', base64decode (mkEBH m' t') = Ok o')).
Proof.
  intros Hlen. split.
  - intros c Hc. unfold find. rewrite find_from_absent by assumption. reflexivity.
  - rewrite !base64decode_returns_iff. cbn [message_]. unfold size.
    rewrite Hlen. reflexivity.
Qed.

Lemma base64decode_no_validation_witness :
  (forall c, c ∉ kBase64Table -> to_char (find kBase64Table c) = 255) /\
  ((exists o, base64decode (mkEBH [33; 33; 33; 33] kBase64Table) = Ok o) <->
   (exists o', base64decode (mkEBH [65; 66; 67; 68] kBase64Table) = Ok o')).
Proof.
  apply (base64decode_no_validation kBase64Table kBase64Table
           [33; 33; 33; 33] [65; 66; 67; 68]).
  reflexivity.
Defined.

(** C8.  Both transforms should be total.  On a message of one
    character duffs_device stores through [message_[1]], past the end;
    xor_head_with_tail throws on the empty message, in both directions. *)
Theorem transforms_not_total :
  duffs_device kDuffsMask (ebh [97]) = UB /\
  (forall o, 0 < size (message_ o) < 4 -> duffs_device kDuffsMask o = UB) /\
  xor_head_with_tail [] true = Throw out_of_range /\
  xor_head_with_tail [] false = Throw out_of_range.
Proof.
  split; [reflexivity |]. split; [| split; reflexivity].
  intros o H. destruct (duffs_device_short kDuffsMask o H) as [E|(_ & E & _)].
  - exact E.
  - vm_compute in E. discriminate.
Qed.

(** C9.  duffs_device should only rewrite characters of the message in
    place, for every message and every mask.  On a message of two or
    three characters it stores past the end, for every mask: the call is
    undefined and no buffer of the same length is returned.  On the
    empty message and on every message of four characters or more it
    returns, with the length of the message and the table as they
    were. *)
Theorem duffs_device_length_short :
  duffs_device kDuffsMask (ebh [97; 98]) = UB /\
  (forall mask o, 2 <= size (message_ o) < 4 -> duffs_device mask o = UB) /\
  (forall mask o,
     size (message_ o) = 0 \/ 4 <= size (message_ o) ->
     exists o',
       duffs_device mask o = Ok o' /\
       length (message_ o') = length (message_ o) /\
       base64table_ o' = base64table_ o).
Proof.
  split; [reflexivity |]. split.
  - intros mask o H.
    destruct (duffs_device_short mask o) as [E|(H1 & _)]; [lia | exact E | lia].
  - intros mask o [H0|H4].
    + exists o. split; [apply duffs_device_empty, size_0, H0 |]. split; reflexivity.
    + eexists. split; [apply duffs_device_long, H4 |].
      destruct o as [s t]. cbn [set_message message_ base64table_].
      split; [apply length_xor_range | reflexivity].
Qed.

(** C10.  On a non-empty input the last statements of base64decode drop
    the last character of the decoded output without looking at it: the
    [resize] that should depend on the trailing-zero test follows an
    [if] whose statement is empty.  Whatever the rounds have left in
    [dst], and so whatever the character that the test reads, the
    result is the first [dst_len - 1] characters of the [dst_len]
    decoded ones, and that is what base64decode returns. *)
Theorem base64decode_strip_unconditional o (dst : str) :
  message_ o <> [] ->
  let len := size (message_ o) in
  exists (out : str) (last : Z),
    decode_strip len dst = Ok out /\
    take (Z.to_nat (decode_dst_len len)) (resize (Z.to_nat len) 0 dst) = out ++ [last] /\
    size out = decode_dst_len len - 1 /\
    (decode_rounds o = Ok dst -> base64decode o = Ok (set_message o out)).
Proof.
  intros Hne len.
  assert (Hlen : 0 < len).
  { subst len. unfold size. destruct (message_ o); [congruence | cbn [length]; lia]. }
  assert (Hq : 1 <= decode_dst_len len <= len).
  { unfold decode_dst_len, decode_bits. lia. }
  set (d := resize (Z.to_nat len) 0 dst).
  assert (Hd : length d = Z.to_nat len) by apply length_resize.
  destruct (lookup_lt_is_Some_2 d (Z.to_nat (decode_dst_len len - 1)))
    as [last Hlast]; [lia |].
  exists (take (Z.to_nat (decode_dst_len len - 1)) d), last.
  split; [apply decode_strip_spec, Hlen |]. split; [| split].
  - rewrite <- (take_S_r _ _ _ Hlast). f_equal. lia.
  - unfold size. rewrite length_take. lia.
  - intros Er. unfold base64decode. rewrite Er, ret_bind. fold len.
    rewrite decode_strip_spec by assumption. reflexivity.
Qed.

(** For "!" the rounds leave three characters 0xFF; the test reads 0xFF,
    not zero, and the character is dropped. *)
Lemma base64decode_strip_unconditional_witness :
  back (resize 1 0 [255; 255; 255]) = Ok 255 /\
  let len := size (message_ (ebh [33])) in
  exists (out : str) (last : Z),
    decode_strip len [255; 255; 255] = Ok out /\
    take (Z.to_nat (decode_dst_len len)) (resize (Z.to_nat len) 0 [255; 255; 255])
    = out ++ [last] /\
    size out = decode_dst_len len - 1 /\
    (decode_rounds (ebh [33]) = Ok [255; 255; 255] ->
     base64decode (ebh [33]) = Ok (set_message (ebh [33]) out)).
Proof.
  split; [reflexivity |].
  apply (base64decode_strip_unconditional (ebh [33]) [255; 255; 255]).
  discriminate.
Defined.


(** * Further properties *)

Lemma at_char_at (s : str) (k : nat) :
  (k <= length s)%nat -> at_ s (Z.of_nat k) = Ok (char_at s k).
Proof.
  intros H. unfold at_, char_at, size.
  destruct (Z.ltb_spec (Z.of_nat k) 0); [lia |]. rewrite Nat2Z.id.
  destruct (s !! k) eqn:E; [reflexivity |].
  destruct (Z.eqb_spec (Z.of_nat k) (Z.of_nat (length s))); [reflexivity |].
  apply lookup_ge_None in E. lia.
Qed.

Lemma to_char_idemp x : to_char (to_char x) = to_char x.
Proof. apply to_char_id, to_char_is_char. Qed.

Lemma lor_mod_256 a b : Z.lor a b mod 256 = Z.lor (a mod 256) (b mod 256).
Proof.
  change 256 with (2 ^ 8). rewrite <- !Z.land_ones by lia.
  apply Z.bits_inj'. intros n Hn.
  rewrite !Z.lor_spec, !Z.land_spec, !Z.lor_spec.
  destruct (Z.testbit (Z.ones 8) n); rewrite ?andb_true_r, ?andb_false_r; reflexivity.
Qed.

(** [(s0 >> 0) | (s1 << 16)], stored in an [unsigned char], is [s0]. *)
Lemma decode_d0 s0 s1 :
  to_char (Z.lor (Z.shiftr (to_char s0) 0) (Z.shiftl s1 16)) = to_char s0.
Proof.
  unfold to_char at 1. rewrite lor_mod_256, Z.shiftr_0_r.
  rewrite Z.shiftl_mul_pow2 by lia.
  replace (s1 * 2 ^ 16) with (s1 * 256 * 256) by lia.
  rewrite Z.mod_mul by lia. rewrite Z.lor_0_r.
  apply to_char_idemp.
Qed.

(** ** base64decode in closed form *)

Lemma decode_buffer_eq (m : str) :
  push_back (push_back (push_back (push_back m 45) 61) 61) 61 = decode_buffer m.
Proof. unfold push_back, decode_buffer. rewrite <- !app_assoc. reflexivity. Qed.

Lemma decode_round_triple buffer table bits done (j : nat) dst :
  (5 * j + 4 <= length buffer)%nat ->
  decode_round buffer table bits (done, Z.of_nat (5 * j), dst)
  = Ok (done + 24, Z.of_nat (5 * S j), dst ++ decode_triple table buffer j).
Proof.
  intros H. unfold decode_round.
  rewrite at_char_at, ret_bind by lia.
  replace (Z.of_nat (5 * j) + 1) with (Z.of_nat (5 * j + 1)) by lia.
  rewrite at_char_at, ret_bind by lia.
  replace (Z.of_nat (5 * j + 1) + 1) with (Z.of_nat (5 * j + 2)) by lia.
  rewrite at_char_at, ret_bind by lia.
  replace (Z.of_nat (5 * j + 2) + 1) with (Z.of_nat (5 * j + 3)) by lia.
  rewrite at_char_at, ret_bind by lia.
  replace (Z.of_nat (5 * j + 3) + 1) with (Z.of_nat (5 * j + 4)) by lia.
  rewrite at_char_at, ret_bind by lia.
  cbv zeta. unfold push_back. rewrite !to_char_idemp, decode_d0.
  rewrite <- !app_assoc. unfold decode_triple.
  do 2 f_equal. f_equal. lia.
Qed.

Lemma decode_loop_closed buffer table bits (r : nat) :
  forall (j : nat) (dst : str) (fuel : nat),
    bits <= 24 * Z.of_nat (j + r) ->
    (r = 0%nat \/ 24 * Z.of_nat (j + r - 1) < bits) ->
    (r = 0%nat \/ 5 * (j + r) <= length buffer + 1)%nat ->
    (r <= fuel)%nat ->
    while_loop fuel (fun '(done, _, _) => done <? bits)
      (decode_round buffer table bits) (24 * Z.of_nat j, Z.of_nat (5 * j), dst)
    = Ok (24 * Z.of_nat (j + r), Z.of_nat (5 * (j + r)),
          dst ++ concat (decode_triple table buffer <$> seq j r)).
Proof.
  induction r as [|r IH]; intros j dst fuel Hbits Hlast Hin Hfuel.
  - rewrite while_loop_false by (cbn; apply Z.ltb_ge; lia).
    cbn [seq fmap list_fmap concat]. rewrite app_nil_r.
    do 3 f_equal; f_equal; lia.
  - destruct fuel as [|fuel]; [lia |].
    rewrite while_loop_true by (cbn; apply Z.ltb_lt; lia).
    rewrite decode_round_triple, ret_bind by lia.
    replace (24 * Z.of_nat j + 24) with (24 * Z.of_nat (S j)) by lia.
    rewrite (IH (S j)) by lia.
    cbn [seq fmap list_fmap concat]. rewrite <- app_assoc.
    do 3 f_equal; f_equal; lia.
Qed.

Lemma length_decode_triples table buffer (j r : nat) :
  length (concat (decode_triple table buffer <$> seq j r)) = (3 * r)%nat.
Proof.
  revert j. induction r as [|r IH]; intros j; [reflexivity |].
  cbn [seq fmap list_fmap concat]. rewrite length_app, IH.
  unfold decode_triple. cbn [length]. lia.
Qed.

Lemma decode_rounds_closed (t m : str) :
  decode_reads_inside (size m) ->
  decode_rounds (mkEBH m t)
  = Ok (concat (decode_triple t (decode_buffer m) <$> seq 0 (decode_round_count (size m)))).
Proof.
  intros Hin. unfold decode_rounds.
  cbn [message_ base64table_]. rewrite decode_buffer_eq.
  unfold decode_reads_inside in Hin.
  pose proof (decode_loop_closed (decode_buffer m) t (decode_bits (size m))
                (decode_round_count (size m)) 0 [] (Z.to_nat (decode_bits (size m)))) as E.
  change (24 * Z.of_nat 0) with 0 in E. change (Z.of_nat (5 * 0)) with 0 in E.
  assert (Hbuf : length (decode_buffer m) = (length m + 4)%nat).
  { unfold decode_buffer. rewrite length_app. reflexivity. }
  unfold size in *.
  rewrite E; unfold decode_bits, decode_round_count; try lia.
  reflexivity.
Qed.

Lemma base64decode_closed (t m : str) :
  0 < size m -> decode_reads_inside (size m) ->
  base64decode (mkEBH m t) = Ok (mkEBH (decode_closed t m) t).
Proof.
  intros Hlen Hin. unfold base64decode.
  rewrite decode_rounds_closed, ret_bind by assumption.
  cbn [message_]. rewrite decode_strip_spec, ret_bind by assumption.
  unfold set_message. cbn [base64table_].
  do 2 f_equal. unfold decode_closed.
  assert (Hq : 1 <= decode_dst_len (size m) <= size m).
  { unfold decode_dst_len, decode_bits. lia. }
  rewrite take_resize_le by lia. rewrite resize_le; [reflexivity |].
  rewrite length_decode_triples.
  unfold decode_reads_inside, decode_dst_len, decode_bits, decode_round_count, size in *.
  lia.
Qed.

(** X1.  On a non-empty input whose reads stay inside the buffer,
    base64decode returns the bytes of [decode_closed]: round [j] looks up
    the characters 5j, 5j+1, 5j+2 and 5j+3 of the buffer; its first byte
    is the table index of the first of them as it is ([npos] as 255),
    because [s1 << 16] does not survive the store; the result is cut to
    [(6 * len + 7) / 8 - 1] bytes, and the zeros that [resize(len)]
    appends never reach it. *)
Theorem base64decode_closed_form (t m : str) :
  0 < size m -> decode_reads_inside (size m) ->
  base64decode (mkEBH m t) = Ok (mkEBH (decode_closed t m) t).
Proof. apply base64decode_closed. Qed.

Lemma base64decode_closed_form_witness :
  base64decode (mkEBH [65; 66; 67; 68] kBase64Table)
  = Ok (mkEBH (decode_closed kBase64Table [65; 66; 67; 68]) kBase64Table).
Proof.
  apply (base64decode_closed_form kBase64Table [65; 66; 67; 68]).
  - vm_compute. reflexivity.
  - unfold decode_reads_inside. vm_compute. discriminate.
Defined.

Lemma decode_reads_inside_lengths len :
  0 < len /\ decode_reads_inside len <->
  (1 <= len <= 8 \/ 10 <= len <= 12 \/ 15 <= len <= 16 \/ len = 20).
Proof.
  unfold decode_reads_inside. split.
  - intros [H0 H1]. assert (len <= 20) by lia. apply Z.leb_le in H1.
    assert (C : len = 1 \/ len = 2 \/ len = 3 \/ len = 4 \/ len = 5 \/ len = 6 \/
                len = 7 \/ len = 8 \/ len = 9 \/ len = 10 \/ len = 11 \/ len = 12 \/
                len = 13 \/ len = 14 \/ len = 15 \/ len = 16 \/ len = 17 \/
                len = 18 \/ len = 19 \/ len = 20) by lia.
    repeat (destruct C as [C|C]); subst len;
      first [lia | (vm_compute in H1; discriminate H1)].
  - intros C.
    assert (C' : len = 1 \/ len = 2 \/ len = 3 \/ len = 4 \/ len = 5 \/ len = 6 \/
                 len = 7 \/ len = 8 \/ len = 10 \/ len = 11 \/ len = 12 \/
                 len = 15 \/ len = 16 \/ len = 20) by lia.
    repeat (destruct C' as [C'|C']); subst len;
      (split; [lia | apply Z.leb_le; reflexivity]).
Qed.

(** X2.  base64decode returns a value exactly on the inputs of 1 to 8,
    10 to 12, 15, 16 or 20 characters; on the empty input and on every
    other length it is undefined ([back()] of an empty string, or a
    read past the terminator of the buffer). *)
Theorem base64decode_defined_lengths o :
  let len := size (message_ o) in
  ((exists o', base64decode o = Ok o') <->
   (1 <= len <= 8 \/ 10 <= len <= 12 \/ 15 <= len <= 16 \/ len = 20)) /\
  (~ (1 <= len <= 8 \/ 10 <= len <= 12 \/ 15 <= len <= 16 \/ len = 20) ->
   base64decode o = UB).
Proof.
  intros len.
  pose proof (decode_reads_inside_lengths len) as Hiff.
  assert (Hub : ~ (0 < len /\ decode_reads_inside len) -> base64decode o = UB).
  { intros Hn. destruct (decode_reads_inside_dec len) as [Hin|Hout].
    - assert (H0 : ~ 0 < len) by tauto.
      apply base64decode_empty, size_0. subst len. unfold size in *. lia.
    - apply base64decode_outside, Hout. }
  split; [split |].
  - intros [o' E]. apply Hiff.
    destruct (decode_reads_inside_dec len) as [Hin|Hout].
    + split; [| assumption].
      destruct (Z.eq_dec len 0) as [H0|H0]; [| subst len; unfold size in *; lia].
      rewrite base64decode_empty in E by (apply size_0, H0). discriminate.
    + rewrite base64decode_outside in E by assumption. discriminate.
  - intros H. apply Hiff in H as [H0 Hin].
    destruct (base64decode_inside o H0 Hin) as (dst & _ & E). eauto.
  - intros Hn. apply Hub. rewrite Hiff. exact Hn.
Qed.

Lemma char_at_insert_ne (m : str) (i k : nat) (c : Z) :
  k <> i -> char_at (decode_buffer (<[i := c]> m)) k = char_at (decode_buffer m) k.
Proof.
  intros Hne. unfold char_at, decode_buffer.
  destruct (decide (i < length m)%nat) as [Hi|Hi].
  - rewrite <- insert_app_l by assumption.
    rewrite list_lookup_insert_ne by congruence. reflexivity.
  - rewrite list_insert_ge by lia. reflexivity.
Qed.

(** X3.  base64decode reads five characters a round and decodes four:
    the characters at the positions 4, 9, 14, ... of its input never
    change its outcome. *)
Theorem base64decode_skips_fifth (t m : str) (i : nat) (c : Z) :
  (i mod 5 = 4)%nat ->
  base64decode (mkEBH (<[i := c]> m) t) = base64decode (mkEBH m t).
Proof.
  intros Hi.
  assert (Hsize : size (<[i := c]> m) = size m).
  { unfold size. rewrite length_insert. reflexivity. }
  destruct (decode_reads_inside_dec (size m)) as [Hin|Hout].
  - destruct (Z.eq_dec (size m) 0) as [H0|H0].
    + apply size_0 in H0. subst m. reflexivity.
    + assert (0 < size m) by (unfold size in *; lia).
      rewrite !base64decode_closed by (rewrite ?Hsize; assumption).
      do 2 f_equal. unfold decode_closed. rewrite Hsize. do 2 f_equal.
      apply list_fmap_ext. intros n j _. unfold decode_triple.
      rewrite !char_at_insert_ne by lia. reflexivity.
  - rewrite !base64decode_outside by (cbn [message_]; rewrite ?Hsize; assumption).
    reflexivity.
Qed.

Lemma base64decode_skips_fifth_witness :
  base64decode (mkEBH (<[4%nat := 33]> [65; 66; 67; 68; 69; 70; 71; 72]) kBase64Table)
  = base64decode (mkEBH [65; 66; 67; 68; 69; 70; 71; 72] kBase64Table).
Proof.
  apply (base64decode_skips_fifth kBase64Table [65; 66; 67; 68; 69; 70; 71; 72] 4 33).
  reflexivity.
Defined.

Lemma decode_triples_empty_table buffer (j r : nat) :
  concat (decode_triple [] buffer <$> seq j r) = replicate (3 * r) 255.
Proof.
  revert j. induction r as [|r IH]; intros j; [reflexivity |].
  cbn [seq fmap list_fmap concat]. rewrite IH.
  replace (3 * S r)%nat with (3 + 3 * r)%nat by lia. reflexivity.
Qed.

(** X4.  With the table as the program runs with it, never initialised
    and so empty, no character is ever found: whatever the input says,
    every byte that base64decode returns is 0xFF. *)
Theorem base64decode_uninitialised_table (m : str) :
  0 < size m -> decode_reads_inside (size m) ->
  base64decode (ebh m)
  = Ok (ebh (replicate (Z.to_nat (decode_dst_len (size m) - 1)) 255)).
Proof.
  intros Hlen Hin. unfold ebh. rewrite base64decode_closed by assumption.
  do 2 f_equal. unfold decode_closed.
  rewrite decode_triples_empty_table, take_replicate. f_equal.
  unfold decode_reads_inside, decode_round_count, decode_dst_len, decode_bits, size in *.
  lia.
Qed.

Lemma base64decode_uninitialised_table_witness :
  base64decode (ebh (take 8 hello))
  = Ok (ebh (replicate (Z.to_nat (decode_dst_len (size (take 8 hello)) - 1)) 255)).
Proof.
  apply (base64decode_uninitialised_table (take 8 hello)).
  - vm_compute. reflexivity.
  - unfold decode_reads_inside. vm_compute. discriminate.
Defined.

(** ** base64encode: what it reads and what it writes *)

Lemma at_elem (s : str) (i c : Z) : at_ s i = Ok c -> c = 0 \/ c ∈ s.
Proof.
  unfold at_. destruct (i <? 0); [discriminate |].
  destruct (s !! Z.to_nat i) as [x|] eqn:E.
  - intros [= <-]. right. eapply list_elem_of_lookup_2; eauto.
  - destruct (i =? size s); [| discriminate]. intros [= <-]. left. reflexivity.
Qed.

Lemma at_defined (s : str) (i : Z) :
  (exists c, at_ s i = Ok c) <-> 0 <= i <= size s.
Proof.
  split.
  - intros [c E]. destruct (Z_lt_le_dec i 0) as [Hn|Hn].
    + unfold at_ in E. destruct (Z.ltb_spec i 0); [discriminate | lia].
    + destruct (Z_lt_le_dec (size s) i) as [Hb|Hb]; [| lia].
      rewrite at_outside in E by assumption. discriminate.
  - apply at_inside.
Qed.

Lemma at_same_length (s s' : str) (i : Z) :
  length s = length s' ->
  (at_ s i = UB /\ at_ s' i = UB) \/ (exists c c', at_ s i = Ok c /\ at_ s' i = Ok c').
Proof.
  intros Hl.
  assert (Hsz : size s = size s') by (unfold size; lia).
  destruct (at_cases s i) as [[c E]|E].
  - right. assert (H : 0 <= i <= size s) by (apply at_defined; eauto).
    destruct (at_inside s' i) as [c' E']; [lia | eauto].
  - left. split; [assumption |].
    destruct (at_cases s' i) as [[c' E']|E']; [| assumption].
    assert (H : 0 <= i <= size s') by (apply at_defined; eauto).
    destruct (at_inside s i) as [c H']; [lia |]. congruence.
Qed.

(** The characters a round of base64encode appends are read from the table. *)
Lemma encode_round_chars s2 message table bits done si dst st' :
  encode_round s2 message table bits (done, si, dst) = Ok st' ->
  exists d0 d1,
    (d0 = 0 \/ d0 ∈ table) /\ (d1 = 0 \/ d1 ∈ table) /\
    st' = (done + 24, si + 1,
           dst ++ [to_char d0; to_char d1; to_char d1; to_char d1]).
Proof.
  unfold encode_round. intros H.
  apply bind_Ok in H as (s0 & _ & H).
  apply bind_Ok in H as (s1 & _ & H). cbv zeta in H.
  apply bind_Ok in H as (d0 & E0 & H).
  apply bind_Ok in H as (d1 & E1 & H).
  rewrite E1 in H. rewrite !ret_bind in H. injection H as <-.
  exists d0, d1. split; [eapply at_elem; eauto |]. split; [eapply at_elem; eauto |].
  unfold push_back. rewrite <- !app_assoc. reflexivity.
Qed.

Lemma base64encode_chars s2 o o' (P : Z -> Prop) :
  P 0 -> (forall c, c ∈ base64table_ o -> P (to_char c)) ->
  base64encode s2 o = Ok o' -> Forall P (message_ o').
Proof.
  intros P0 Pt. unfold base64encode. intros H.
  apply bind_Ok in H as ([[done si] dst] & Hloop & H).
  apply bind_Ok in H as (out & Hres & [= <-]). cbn [set_message message_].
  apply (while_loop_invariant _ _ (fun '(_, _, dst) => Forall P dst)) in Hloop
    as [Hdst _].
  - unfold resize_ in Hres. destruct (_ <? 0); [discriminate |].
    injection Hres as <-. apply Forall_resize; assumption.
  - intros [[d i] l] st' _ Hl Hr.
    apply encode_round_chars in Hr as (d0 & d1 & [-> | H0] & [-> | H1] & ->);
      apply Forall_app; (split; [assumption |]);
      repeat apply Forall_cons_2; auto using Forall_nil_2.
  - apply Forall_nil_2.
Qed.

(** X5.  Every character that base64encode returns is a character of
    the table or NUL (the terminator of the table, read when the index
    is its size, and the filling of [resize]). *)
Theorem base64encode_alphabet s2 o o' :
  Forall is_char (base64table_ o) ->
  base64encode s2 o = Ok o' ->
  Forall (fun c => c = 0 \/ c ∈ base64table_ o) (message_ o').
Proof.
  intros Ht. apply base64encode_chars.
  - left. reflexivity.
  - intros c Hc. right. rewrite to_char_id; [assumption |].
    eapply Forall_forall in Ht; eauto.
Qed.

Lemma base64encode_alphabet_witness :
  Forall (fun c => c = 0 \/ c ∈ base64table_ (mkEBH (replicate 60 63) kBase64Table))
    (message_ (mkEBH (concat (replicate 22 [65; 0; 0; 0]) ++ [65; 0]) kBase64Table)).
Proof.
  apply (base64encode_alphabet 0 (mkEBH (replicate 60 63) kBase64Table)).
  - cbn [base64table_]. unfold kBase64Table.
    repeat (apply Forall_cons_2; [unfold is_char; lia |]). apply Forall_nil_2.
  - vm_compute. reflexivity.
Defined.

Lemma base64encode_head_outside s2 (t : str) (b : Z) (m : str) :
  size (b :: m) + 3 < b -> base64encode s2 (mkEBH (b :: m) t) = UB.
Proof.
  intros Hb. unfold base64encode. cbn [message_ base64table_].
  set (buffer := push_back _ _).
  assert (Hsz : size buffer = size (b :: m) + 3).
  { subst buffer. unfold push_back, size. rewrite !length_app. cbn [length]. lia. }
  assert (Hbits : 0 < encode_bits (size (b :: m))).
  { unfold encode_bits, size. cbn [length]. lia. }
  destruct (Z.to_nat (encode_bits (size (b :: m)))) as [|fuel] eqn:Ef; [lia |].
  rewrite while_loop_true by (cbn; apply Z.ltb_lt; lia).
  unfold encode_round.
  assert (E0 : at_ buffer 0 = Ok b).
  { apply (at_in buffer 0 b). reflexivity. }
  rewrite E0, ret_bind. rewrite (at_outside buffer b) by lia. reflexivity.
Qed.

(** X6.  base64encode indexes the message with one of its own bytes
    ([message_[s0++]]): when the first byte of a non-empty message
    exceeds its length by more than three, the read is past the
    terminator and the call is undefined, whatever the table. *)
Theorem base64encode_head_index s2 (t : str) (b : Z) (m : str) :
  size (b :: m) + 3 < b -> base64encode s2 (mkEBH (b :: m) t) = UB.
Proof. apply base64encode_head_outside. Qed.

Lemma base64encode_head_index_witness :
  base64encode 0 (mkEBH hello kBase64Table) = UB.
Proof.
  apply (base64encode_head_index 0 kBase64Table 72
           [101; 108; 108; 111; 44; 32; 87; 111; 114; 108; 100; 33]).
  vm_compute. reflexivity.
Defined.

(** The bytes base64encode takes its characters from: one a round. *)
Lemma encode_round_agree s2 (B B' : str) table bits done (si : Z) dst :
  length B = length B' -> 0 <= si -> B !! Z.to_nat si = B' !! Z.to_nat si ->
  encode_round s2 B table bits (done, si, dst)
  = encode_round s2 B' table bits (done, si, dst).
Proof.
  intros Hl Hsi Hat. unfold encode_round.
  assert (E : at_ B si = at_ B' si).
  { unfold at_, size. rewrite Hat, Hl. reflexivity. }
  rewrite <- E. destruct (at_ B si) as [s0| | |]; try reflexivity.
  rewrite !ret_bind.
  destruct (at_same_length B B' s0 Hl) as [[-> ->]|(c & c' & -> & ->)];
    reflexivity.
Qed.

Lemma encode_loop_agree s2 (B B' : str) table bits (R : nat) :
  length B = length B' -> take R B = take R B' -> bits <= 24 * Z.of_nat R ->
  forall (fuel : nat) (si : Z) (dst : str),
    0 <= si ->
    while_loop fuel (fun '(done, _, _) => done <? bits)
      (encode_round s2 B table bits) (24 * si, si, dst)
    = while_loop fuel (fun '(done, _, _) => done <? bits)
        (encode_round s2 B' table bits) (24 * si, si, dst).
Proof.
  intros Hl Ht Hbits fuel.
  induction fuel as [|fuel IH]; intros si dst Hsi; [reflexivity |].
  destruct (Z.ltb_spec (24 * si) bits) as [Hlt|Hge].
  - rewrite !while_loop_true by (cbn; apply Z.ltb_lt; lia).
    assert (Hat : B !! Z.to_nat si = B' !! Z.to_nat si).
    { rewrite <- (lookup_take_lt B R), <- (lookup_take_lt B' R) by lia.
      rewrite Ht. reflexivity. }
    rewrite <- (encode_round_agree s2 B B') by assumption.
    destruct (encode_round_cases s2 B table bits (24 * si, si, dst))
      as [(d & i & l & l' & [= <- <- <-] & -> & _)| ->]; [| reflexivity].
    rewrite !ret_bind.
    replace (24 * si + 24) with (24 * (si + 1)) by lia.
    apply IH. lia.
  - rewrite !while_loop_false by (cbn; apply Z.ltb_ge; lia). reflexivity.
Qed.

(** X7.  base64encode advances its source index once a round, so it
    encodes only the first [ceil(bits / 24)] bytes, about three in
    eight: two messages of the same length that agree on those bytes
    have the same outcome, whatever follows. *)
Theorem base64encode_prefix_only s2 (t m m' : str) :
  let R := Z.to_nat ((encode_bits (size m) + 23) / 24) in
  length m = length m' -> take R m = take R m' ->
  base64encode s2 (mkEBH m t) = base64encode s2 (mkEBH m' t).
Proof.
  intros R Hl Ht. unfold base64encode. cbn [message_ base64table_ set_message].
  assert (Hsz : size m' = size m) by (unfold size; lia).
  rewrite Hsz.
  assert (HR : (R <= length m)%nat).
  { subst R. unfold encode_bits, size. lia. }
  pose proof (encode_loop_agree s2
                (push_back (push_back (push_back m 0) 0) 0)
                (push_back (push_back (push_back m' 0) 0) 0)
                t (encode_bits (size m)) R) as E.
  change (24 * 0) with 0 in E.
  rewrite (E) with (si := 0); [reflexivity | | | | lia].
  - unfold push_back. rewrite !length_app. cbn [length]. lia.
  - unfold push_back. rewrite <- !app_assoc.
    rewrite !take_app_le by lia. assumption.
  - subst R. unfold encode_bits, size. lia.
Qed.

Lemma base64encode_prefix_only_witness :
  base64encode 0 (mkEBH (replicate 60 63) kBase64Table)
  = base64encode 0 (mkEBH (replicate 23 63 ++ replicate 37 120) kBase64Table).
Proof.
  apply (base64encode_prefix_only 0 kBase64Table (replicate 60 63)
           (replicate 23 63 ++ replicate 37 120)).
  - reflexivity.
  - vm_compute. reflexivity.
Defined.

(** The first round of base64encode on a non-empty message. *)
Lemma base64encode_first_round s2 (t : str) (b : Z) (m : str) o' :
  base64encode s2 (mkEBH (b :: m) t) = Ok o' ->
  exists c c',
    at_ t (to_char (Z.land (to_char (b + 1)) 63)) = Ok c /\ at_ t c = Ok c'.
Proof.
  unfold base64encode. cbn [message_ base64table_].
  set (buffer := push_back _ _).
  assert (Hbits : 0 < encode_bits (size (b :: m))).
  { unfold encode_bits, size. cbn [length]. lia. }
  destruct (Z.to_nat (encode_bits (size (b :: m)))) as [|fuel] eqn:Ef; [lia |].
  rewrite while_loop_true by (cbn; apply Z.ltb_lt; lia).
  unfold encode_round.
  assert (E0 : at_ buffer 0 = Ok b).
  { apply (at_in buffer 0 b). reflexivity. }
  rewrite E0, ret_bind. intros H.
  apply bind_Ok in H as (st & H & _).
  apply bind_Ok in H as (st1 & H & _).
  apply bind_Ok in H as (s1 & _ & H). cbv zeta in H.
  apply bind_Ok in H as (c & Ec & H).
  apply bind_Ok in H as (c' & Ec' & _). eauto.
Qed.

Lemma at_nil (i c : Z) : at_ [] i = Ok c -> i = 0 /\ c = 0.
Proof.
  unfold at_. destruct (i <? 0); [discriminate |].
  rewrite lookup_nil. change (size []) with 0.
  destruct (Z.eqb_spec i 0); [| discriminate]. intros [= <-]. auto.
Qed.

(** X8.  With the table as the program runs with it (empty), what
    base64encode returns consists of NUL characters only, and it returns
    on a non-empty message only if that message starts with '?' (63),
    127, 191 or 255 and has at least sixty bytes: no shorter message and
    no message that starts with a letter or a digit can be encoded. *)
Theorem base64encode_uninitialised_table s2 (m : str) o' :
  Forall is_char m ->
  base64encode s2 (ebh m) = Ok o' ->
  message_ o' = replicate (Z.to_nat (Z.quot (encode_bits (size m) + 5) 6)) 0 /\
  (m = [] \/
   exists b m', m = b :: m' /\ (b = 63 \/ b = 127 \/ b = 191 \/ b = 255) /\
                60 <= size m).
Proof.
  intros Hc E. split.
  - pose proof (base64encode_outcome s2 (ebh m)) as Hlen. rewrite E in Hlen.
    destruct Hlen as [Hlen _]. cbn [message_ ebh] in Hlen.
    symmetry. apply replicate_as_Forall. split.
    + unfold size in Hlen at 1. lia.
    + eapply (base64encode_chars s2 (ebh m) o' (fun c => 0 = c)); eauto.
      cbn [base64table_ ebh]. intros c Hin. apply elem_of_nil in Hin as [].
  - destruct m as [|b m']; [left; reflexivity | right].
    exists b, m'. split; [reflexivity |].
    assert (Hb : is_char b) by (eapply Forall_inv; eauto).
    assert (Hsz : ~ size (b :: m') + 3 < b).
    { intros Hout. unfold ebh in E.
      rewrite base64encode_head_outside in E by assumption. discriminate. }
    unfold ebh in E. apply base64encode_first_round in E as (c & c' & Ec & _).
    apply at_nil in Ec as [Ei _].
    unfold to_char in Ei. change 63 with (Z.ones 6) in Ei.
    rewrite Z.land_ones in Ei by lia. unfold is_char in Hb.
    change (2 ^ 6) with 64 in Ei.
    assert (Hhead : b = 63 \/ b = 127 \/ b = 191 \/ b = 255) by lia.
    split; [assumption | lia].
Qed.

Lemma base64encode_uninitialised_table_witness :
  message_ (ebh (replicate 90 0))
  = replicate (Z.to_nat (Z.quot (encode_bits (size (replicate 60 63)) + 5) 6)) 0 /\
  (replicate 60 63 = [] \/
   exists b m', replicate 60 63 = b :: m' /\
                (b = 63 \/ b = 127 \/ b = 191 \/ b = 255) /\
                60 <= size (replicate 60 63)).
Proof.
  apply (base64encode_uninitialised_table 0 (replicate 60 63) (ebh (replicate 90 0))).
  - apply Forall_replicate. unfold is_char. lia.
  - vm_compute. reflexivity.
Defined.

(** ** duffs_device: two masks, and short messages *)

Lemma mask_byte_lxor m1 m2 k :
  mask_byte (Z.lxor m1 m2) k = Z.lxor (mask_byte m1 k) (mask_byte m2 k).
Proof.
  unfold mask_byte, to_char. rewrite Z.shiftr_lxor. apply lxor_mod_256.
Qed.

Lemma char_xor_twice c a b :
  is_char c -> is_char a -> is_char b ->
  char_xor (char_xor c a) b = char_xor c (Z.lxor a b).
Proof.
  intros Hc Ha Hb.
  assert (Hab : is_char (Z.lxor a b)).
  { rewrite <- (char_xor_lxor a b) by assumption. apply char_xor_is_char. }
  rewrite (char_xor_lxor (char_xor c a) b) by auto using char_xor_is_char.
  rewrite !char_xor_lxor by assumption. apply Z.lxor_assoc.
Qed.

Lemma duffs_masked_compose m1 m2 (s : str) :
  Forall is_char s ->
  duffs_masked m2 (duffs_masked m1 s) = duffs_masked (Z.lxor m1 m2) s.
Proof.
  intros Hs. unfold duffs_masked at 1.
  assert (E : size (duffs_masked m1 s) = size s).
  { unfold size, duffs_masked. rewrite length_xor_range. reflexivity. }
  rewrite E. unfold duffs_masked.
  apply list_eq. intros j. rewrite !lookup_xor_range.
  destruct (s !! j) as [c|] eqn:Ej; simpl; [| reflexivity].
  destruct (decide _); [| reflexivity].
  f_equal. unfold duffs_mask_at. rewrite mask_byte_lxor.
  apply char_xor_twice; auto using mask_byte_is_char.
  eapply Forall_lookup_1; eauto.
Qed.

(** X9.  On the empty message and on every message of four bytes or
    more, masking with one mask and then with another is masking once
    with the exclusive or of the two masks. *)
Theorem duffs_device_masks_compose m1 m2 o :
  Forall is_char (message_ o) ->
  size (message_ o) = 0 \/ 4 <= size (message_ o) ->
  duffs_device m1 o ≫= duffs_device m2 = duffs_device (Z.lxor m1 m2) o.
Proof.
  intros Hc [H0|H4].
  - apply size_0 in H0. rewrite !(duffs_device_empty _ o) by assumption.
    rewrite ret_bind. apply duffs_device_empty, H0.
  - rewrite (duffs_device_long m1), ret_bind by assumption.
    rewrite (duffs_device_long (Z.lxor m1 m2)) by assumption.
    destruct o as [s t]. cbn [set_message message_ base64table_] in *.
    assert (E : size (duffs_masked m1 s) = size s).
    { unfold size, duffs_masked. rewrite length_xor_range. reflexivity. }
    unfold set_message. cbn [message_ base64table_].
    rewrite duffs_device_long by (cbn [message_]; rewrite E; assumption).
    unfold set_message. cbn [message_ base64table_].
    rewrite duffs_masked_compose by assumption. reflexivity.
Qed.

Lemma duffs_device_masks_compose_witness :
  duffs_device kDuffsMask (ebh hello) ≫= duffs_device 0x0F0F0F0F
  = duffs_device (Z.lxor kDuffsMask 0x0F0F0F0F) (ebh hello).
Proof.
  apply (duffs_device_masks_compose kDuffsMask 0x0F0F0F0F (ebh hello)).
  - cbn [message_ ebh]. unfold hello.
    repeat (apply Forall_cons_2; [unfold is_char; lia |]). apply Forall_nil_2.
  - right. vm_compute. discriminate.
Defined.

(** X10.  Below four bytes the partial pass of the Duff's device runs
    before the loop test.  For every mask, a message of two or three
    bytes is undefined; a message of one byte is returned unchanged when
    the low byte of the mask is zero, and is undefined otherwise. *)
Theorem duffs_device_short_messages mask o :
  (2 <= size (message_ o) < 4 -> duffs_device mask o = UB) /\
  (size (message_ o) = 1 ->
   duffs_device mask o = if mask_byte mask 3 =? 0 then Ok o else UB).
Proof.
  destruct o as [s t]. unfold size. cbn [message_]. split; intros Hlen.
  - destruct (duffs_device_short mask (mkEBH s t)) as [E|(H1 & _)];
      [unfold size; cbn [message_]; lia | exact E |].
    unfold size in H1. cbn [message_] in H1. lia.
  - destruct s as [|a [|b s]]; cbn [length] in Hlen; try lia.
    unfold duffs_device. cbn [message_].
    change (size [a]) with 1. change (Z.rem 1 4) with 1.
    cbn [duffs_switch]. unfold case_1, xor_step, xor_assign.
    change (at_ [a] 1) with (@Ok Z 0). rewrite ret_bind.
    unfold assign. change (1 <? 0) with false. change (1 <? size [a]) with false.
    change (1 =? size [a]) with true. cbn [andb].
    change (char_val 0) with 0. rewrite Z.lxor_0_l.
    change (to_char mask) with (mask_byte mask 3).
    assert (E : to_char (char_val (mask_byte mask 3)) = mask_byte mask 3).
    { apply char_val_mod, to_char_is_char. }
    rewrite E. destruct (mask_byte mask 3 =? 0); reflexivity.
Qed.

Lemma duffs_device_short_messages_witness :
  duffs_device kDuffsMask (ebh [97])
  = if mask_byte kDuffsMask 3 =? 0 then Ok (ebh [97]) else UB.
Proof.
  apply (proj2 (duffs_device_short_messages kDuffsMask (ebh [97]))).
  reflexivity.
Defined.

(** ** init_base64table *)

Lemma init_fill (m l : str) :
  length l = 65%nat ->
  (st ← fill_chars 65 90 (0, l);
   st ← fill_chars 97 122 st;
   st ← fill_chars 48 57 st;
   st ← put_char 43 st;
   st ← put_char 47 st;
   st ← put_char 61 st;
   Ok (mkEBH m (snd st)))
  = Ok (mkEBH m (take 62 kBase64Table ++ drop 62 l)).
Proof.
  intros H.
  do 65 (destruct l as [|? l]; [discriminate H |]).
  destruct l; [| discriminate H].
  vm_compute. reflexivity.
Qed.

Lemma init_base64table_closed o :
  init_base64table o
  = Ok (mkEBH (message_ o)
          (take 62 kBase64Table ++ drop 62 (resize 65 0 (base64table_ o)))).
Proof.
  unfold init_base64table, resize_. change (65 <? 0) with false. cbv iota.
  rewrite ret_bind. change (Z.to_nat 65) with 65%nat. change (to_char 0) with 0.
  apply init_fill, length_resize.
Qed.

(** X11.  init_base64table always returns and leaves the message alone.
    The table it builds has 65 characters, of which it writes 62: each
    of its three loops stops one short, so the letters are A to Y and a
    to y, the digits 0 to 8, then '+', '/' and '=' ('Z', 'z' and '9' are
    not among them, and '=' is at index 61).  The last three characters
    are what [resize(65)] left there: those of the old table, or NUL. *)
Theorem init_base64table_shape o :
  exists t : str,
    init_base64table o = Ok (mkEBH (message_ o) t) /\
    length t = 65%nat /\
    take 62 t = take 62 kBase64Table /\
    drop 62 t = drop 62 (resize 65 0 (base64table_ o)) /\
    (90 ∉ take 62 t) /\ (122 ∉ take 62 t) /\ (57 ∉ take 62 t) /\
    t !! 61%nat = Some 61.
Proof.
  eexists. split; [apply init_base64table_closed |].
  set (rest := drop 62 (resize 65 0 (base64table_ o))).
  assert (Hrest : length rest = 3%nat).
  { subst rest. rewrite length_drop, length_resize. reflexivity. }
  split; [rewrite length_app, Hrest; reflexivity |].
  split; [rewrite take_app_length' by reflexivity; reflexivity |].
  split; [rewrite drop_app_length' by reflexivity; reflexivity |].
  rewrite take_app_length' by reflexivity.
  repeat split;
    try (intros Hin%list_elem_of_In; vm_compute in Hin; intuition discriminate).
Qed.

Lemma table_lookup_find (rest : str) (k : nat) :
  (k < 62)%nat ->
  exists c, (take 62 kBase64Table ++ rest) !! k = Some c /\
            find (take 62 kBase64Table ++ rest) c = Z.of_nat k.
Proof.
  intros Hk.
  do 62 (destruct k as [|k]; [eexists; split; reflexivity |]).
  lia.
Qed.

(** X12.  After init_base64table, whatever the table was before, each
    of the six-bit values 0 to 61 has a character of its own: looking
    the character at index [k] up with [find] gives [k] back.  The
    values 62 and 63 have none: on a fresh object both positions hold
    NUL, which [find] locates at 62. *)
Theorem init_base64table_lookup :
  (forall o o' (k : Z),
     init_base64table o = Ok o' -> 0 <= k < 62 ->
     exists c, at_ (base64table_ o') k = Ok c /\ find (base64table_ o') c = k) /\
  (forall m o',
     init_base64table (ebh m) = Ok o' ->
     at_ (base64table_ o') 62 = Ok 0 /\ at_ (base64table_ o') 63 = Ok 0 /\
     find (base64table_ o') 0 = 62).
Proof.
  split.
  - intros o o' k E Hk. rewrite init_base64table_closed in E. injection E as <-.
    cbn [base64table_].
    destruct (table_lookup_find (drop 62 (resize 65 0 (base64table_ o))) (Z.to_nat k))
      as (c & Hc & Hf); [lia |].
    exists c. split.
    + replace k with (Z.of_nat (Z.to_nat k)) by lia. apply at_in, Hc.
    + etransitivity; [exact Hf | lia].
  - intros m o' E. rewrite init_base64table_closed in E. injection E as <-.
    repeat split; reflexivity.
Qed.

Lemma init_base64table_lookup_witness :
  exists c, at_ (base64table_ (mkEBH hello kBase64Table)) 7 = Ok c /\
            find (base64table_ (mkEBH hello kBase64Table)) c = 7.
Proof.
  apply (proj1 init_base64table_lookup (ebh hello) (mkEBH hello kBase64Table) 7).
  - reflexivity.
  - lia.
Defined.

(** ** run, main *)

Lemma encode_not_ok s2 o : encode s2 o = Throw out_of_range \/ encode s2 o = UB.
Proof.
  unfold encode.
  destruct (duffs_device_cases kDuffsMask o)
    as [[_ E]|[[_ [E|(_ & _ & E)]]|[_ E]]]; rewrite E; try (right; reflexivity);
    left; rewrite ret_bind; unfold xor_head_with_tail;
    rewrite xor_head_with_tail_rec_throws by lia; reflexivity.
Qed.

Lemma decode_not_ok o : decode o = Throw out_of_range \/ decode o = UB.
Proof.
  unfold decode.
  destruct (base64decode_cases o) as [[o1 E]|E]; rewrite E.
  - left. rewrite ret_bind. unfold xor_head_with_tail.
    rewrite xor_head_with_tail_rec_throws by lia. reflexivity.
  - right. reflexivity.
Qed.

(** X13.  [main] drops the program name and decrements [argc] before it
    calls [run], and [run] still compares [argc] with 3: unless three
    arguments follow the program name, and so for both invocations that
    the usage text documents, the program prints the usage text and
    returns 1 without looking at any argument. *)
Theorem main_documented_usage s2 option_e (args : list str) :
  length args <> 4%nat ->
  main s2 option_e args = Ok (1, [usage_head; usage_encode; usage_decode]).
Proof.
  intros H. unfold main, run.
  destruct (Z.eqb_spec (Z.of_nat (length args) - 1) 3); [lia |]. reflexivity.
Qed.

Lemma main_documented_usage_witness :
  main 0 (fun _ => true) [[101; 98; 104]; [45; 101]; hello]
  = Ok (1, [usage_head; usage_encode; usage_decode]).
Proof.
  apply (main_documented_usage 0 (fun _ => true) [[101; 98; 104]; [45; 101]; hello]).
  cbn [length]. lia.
Defined.

Lemma arg_cases (argv : list str) (i : Z) :
  (exists a, arg argv i = Ok a) \/ arg argv i = UB.
Proof.
  unfold arg. destruct (i <? 0); [right; reflexivity |].
  destruct (argv !! Z.to_nat i); [left; eauto | right; reflexivity].
Qed.

(** X14.  The program never succeeds: whatever its arguments, and
    whichever branch the ill-formed test [option = "-e"] takes, [main]
    never returns 0 and never prints a message.  When it returns, it
    returns 1 after the usage text; otherwise [encode] or [decode] ends
    in the exception of the diffusion stage or in undefined behaviour. *)
Theorem main_never_succeeds s2 option_e (args : list str) :
  main s2 option_e args = Ok (1, [usage_head; usage_encode; usage_decode]) \/
  main s2 option_e args = Throw out_of_range \/
  main s2 option_e args = UB.
Proof.
  unfold main, run.
  destruct (negb _); [left; reflexivity |].
  destruct (arg_cases (tail args) 1) as [[option ->]| ->];
    [rewrite ret_bind | right; right; reflexivity].
  destruct (arg_cases (tail args) 2) as [[m ->]| ->];
    [rewrite ret_bind | right; right; reflexivity].
  cbv zeta. destruct (option_e option).
  - destruct (encode_not_ok s2 (set_message (ebh []) m)) as [E|E]; rewrite E; auto.
  - destruct (bool_decide _); [| left; reflexivity].
    destruct (decode_not_ok (set_message (ebh []) m)) as [E|E]; rewrite E; auto.
Qed.

(** With three arguments after the program name the stages do run. *)
Example main_decode_throws :
  main 0 (fun _ => false) [[101; 98; 104]; [120]; [45; 100]; [65; 66; 67; 68]]
  = Throw out_of_range.
Proof. vm_compute. reflexivity. Qed.

(** ** What base64decode cannot return *)

Lemma find_from_range (s : str) (c pos : Z) :
  find_from s c pos = -1 \/ pos <= find_from s c pos < pos + size s.
Proof.
  revert pos. induction s as [|x s IH]; intros pos; [left; reflexivity |].
  cbn [find_from]. unfold size. cbn [length].
  destruct (x =? c); [right; lia |].
  destruct (IH (pos + 1)) as [E|E]; [left; assumption | right].
  unfold size in E. lia.
Qed.

Lemma find_char_range (t : str) (c : Z) :
  size t <= 65 -> 0 <= to_char (find t c) < 65 \/ to_char (find t c) = 255.
Proof.
  intros Ht. unfold find.
  destruct (find_from_range t c 0) as [->|H]; [right; reflexivity | left].
  rewrite to_char_id by (unfold is_char; lia). lia.
Qed.

Lemma lookup_decode_triples table buffer (r : nat) :
  forall (a j : nat), (j < r)%nat ->
    concat (decode_triple table buffer <$> seq a r) !! (3 * j)%nat
    = Some (to_char (find table (char_at buffer (5 * (a + j))))).
Proof.
  induction r as [|r IH]; intros a j Hj; [lia |].
  cbn [seq fmap list_fmap concat]. destruct j as [|j].
  - replace (a + 0)%nat with a by lia. reflexivity.
  - rewrite lookup_app_r by (unfold decode_triple; cbn [length]; lia).
    replace (3 * S j - length (decode_triple table buffer a))%nat
      with (3 * j)%nat by (unfold decode_triple; cbn [length]; lia).
    rewrite (IH (S a) j) by lia. do 4 f_equal. lia.
Qed.

(** X15.  With a table of at most 65 characters (the size that
    init_base64table gives it), the bytes that base64decode returns at
    the positions 0, 3, 6, ... are table indexes stored as they are: each
    is at most 64, or 255 for a character that was not found.  No text
    that starts with a letter is the decoding of anything. *)
Theorem base64decode_every_third_byte (t m : str) o' (j : nat) (c : Z) :
  size t <= 65 ->
  base64decode (mkEBH m t) = Ok o' ->
  message_ o' !! (3 * j)%nat = Some c ->
  0 <= c < 65 \/ c = 255.
Proof.
  intros Ht E Hc.
  destruct (decode_reads_inside_dec (size m)) as [Hin|Hout];
    [| rewrite base64decode_outside in E by assumption; discriminate].
  destruct (Z.eq_dec (size m) 0) as [H0|H0].
  { rewrite base64decode_empty in E by (apply size_0, H0). discriminate. }
  assert (Hlen : 0 < size m) by (unfold size in *; lia).
  rewrite base64decode_closed in E by assumption. injection E as <-.
  cbn [message_] in Hc. unfold decode_closed in Hc.
  apply lookup_take_Some in Hc as [Hc Hlt].
  assert (Hj : (j < decode_round_count (size m))%nat).
  { apply lookup_lt_Some in Hc. rewrite length_decode_triples in Hc. lia. }
  rewrite (lookup_decode_triples _ _ _ 0 j Hj) in Hc. injection Hc as <-.
  apply find_char_range, Ht.
Qed.

Lemma base64decode_every_third_byte_witness : 0 <= 0 < 65 \/ 0 = 255.
Proof.
  apply (base64decode_every_third_byte kBase64Table [65; 66; 67; 68]
           (mkEBH [0; 32] kBase64Table) 0 0).
  - vm_compute. discriminate.
  - vm_compute. reflexivity.
  - reflexivity.
Defined.
